(** * Seat registry of the concurrent ticket booking system

    A shallow embedding of [src/models/seatModel.js]: the seat table, the
    busy-wait mutex, the expiration sweep and the operations of [SeatModel],
    and of the handlers of [src/controllers/seatController.js] that call
    them, followed by the properties of the lease state machine.

    Conventions of the embedding.
    - A [Date] is its time value, an integer number of milliseconds ([Z]).
      Every [new Date()] of the source is an explicit argument of the
      function that performs it, in source order, so that two clock reads of
      one call may differ.
    - [uuidv4()] comes from the [uuid] package; the identifier it returns is
      an explicit argument of [lockSeat].
    - [userId] and [lockId] are strings; [null] is [None].
    - The module-level [seats] object is a [gmap string Seat]; its keys never
      change after [initializeSeats], and no statement below depends on the
      enumeration order of [Object.keys]. *)

From stdpp Require Import gmap strings list fin_maps.
From Stdlib Require Import ZArith Lia Ascii.

Local Open Scope Z_scope.

(** ** Data model *)

(** [SEAT_STATUS]: 'available', 'locked', 'booked'. *)
Inductive Status : Type :=
  | AVAILABLE
  | LOCKED
  | BOOKED.

#[global] Instance Status_eq_dec : EqDecision Status.
Proof. solve_decision. Defined.

(** The object literal built by [initializeSeats] for every seat. *)
Record Seat : Type := mkSeat {
  id : string;
  row : string;
  number : Z;
  status : Status;
  userId : option string;
  lockId : option string;
  lockedAt : option Z;
  lockExpiresAt : option Z;
  bookedAt : option Z
}.

(** [LOCK_DURATION = 60 * 1000] milliseconds. *)
Definition LOCK_DURATION : Z := 60 * 1000.

(** [`${row}${i}`] for the seat numbers 1..8 of the layout. *)
Definition digit (i : Z) : string :=
  match i with
  | 1 => "1" | 2 => "2" | 3 => "3" | 4 => "4"
  | 5 => "5" | 6 => "6" | 7 => "7" | 8 => "8"
  | _ => "0"
  end%string.

Definition rows : list string := ["A"; "B"; "C"; "D"; "E"]%string.
Definition seatNumbers : list Z := [1; 2; 3; 4; 5; 6; 7; 8].

Definition freshSeat (r : string) (i : Z) : Seat :=
  {| id := (r ++ digit i)%string; row := r; number := i;
     status := AVAILABLE; userId := None; lockId := None;
     lockedAt := None; lockExpiresAt := None; bookedAt := None |}.

(** [initializeSeats]: the outer [rows.forEach] and the inner [for] loop, each
    iteration assigning [seats[seatId]]. *)
Definition initializeSeats : gmap string Seat :=
  foldl (fun seats r =>
           foldl (fun seats i => <[(r ++ digit i)%string := freshSeat r i]> seats)
                 seats seatNumbers)
        ∅ rows.

(** ** Property reads on the [seats] object

    [seats] is created by the literal [{}], so [seats[seatId]] also finds the
    members inherited from [Object.prototype]: for those names the read yields
    a function (or, for [__proto__], the prototype object), which is truthy
    and has no [status] property. *)
Definition Object_prototype_names : list string :=
  [ "constructor"; "__defineGetter__"; "__defineSetter__"; "hasOwnProperty";
    "__lookupGetter__"; "__lookupSetter__"; "isPrototypeOf";
    "propertyIsEnumerable"; "toString"; "valueOf"; "__proto__";
    "toLocaleString" ]%string.

Inductive Property : Type :=
  | Undefined
  | Inherited
  | Own (seat : Seat).

Definition inherited (seatId : string) : bool :=
  bool_decide (seatId ∈ Object_prototype_names).

(** [seats[seatId]] *)
Definition get (seats : gmap string Seat) (seatId : string) : Property :=
  match seats !! seatId with
  | Some seat => Own seat
  | None => if inherited seatId then Inherited else Undefined
  end.

(** ** The expiration sweep *)

(** The mutation in the body of the sweep and of the two release paths:
    status back to 'available', holder and lock fields set to [null]. *)
Definition clearLock (seat : Seat) : Seat :=
  {| id := id seat; row := row seat; number := number seat;
     status := AVAILABLE; userId := None; lockId := None;
     lockedAt := None; lockExpiresAt := None; bookedAt := bookedAt seat |}.

(** [seat.status === LOCKED && seat.lockExpiresAt && now > seat.lockExpiresAt];
    a [Date] object is always truthy, [null] is not. *)
Definition lockExpired (now : Z) (seat : Seat) : bool :=
  match status seat, lockExpiresAt seat with
  | LOCKED, Some expiresAt => expiresAt <? now
  | _, _ => false
  end.

Definition expire (now : Z) (seat : Seat) : Seat :=
  if lockExpired now seat then clearLock seat else seat.

(** [cleanupExpiredLocks]: one clock read, then every seat of the table is
    visited; the visits are independent of each other. *)
Definition cleanupExpiredLocks (now : Z) (seats : gmap string Seat)
  : gmap string Seat :=
  expire now <$> seats.

(** ** Results of the operations

    The source returns object literals whose [error] text tells the outcomes
    apart; each outcome is a constructor carrying the values interpolated in
    the text or returned next to it. A status of [None] is [undefined]. *)
Inductive LockResult : Type :=
  | LockSuccess (lockId : string) (lockExpiresAt : Z) (seat : Seat)
  | LockSeatNotFound
  | LockConflict (currentStatus : option Status).

Inductive ConfirmResult : Type :=
  | ConfirmSuccess (seat : Seat)
  | ConfirmSeatNotFound
  | ConfirmNotLocked (currentStatus : option Status)
  | ConfirmLockedByAnotherUser
  | ConfirmInvalidLockId
  | ConfirmLockExpired.

Inductive UnlockResult : Type :=
  | UnlockSuccess (seat : Seat)
  | UnlockSeatNotFound
  | UnlockNotLocked (currentStatus : option Status)
  | UnlockInvalidUserOrLockId.

(** ** SeatModel

    [lockSeat], [confirmBooking] and [unlockSeat] below are the [try] blocks
    of the three [async] methods; each block is synchronous. The
    [await acquireMutex(seatId)] before the block and the [releaseMutex] of
    its [finally] are modelled in [EventLoop]. *)

(** [new Date() > seat.lockExpiresAt]: relational comparison converts both
    operands to numbers, and [null] converts to 0. *)
Definition dateAfter (now : Z) (d : option Z) : bool :=
  match d with
  | Some t => t <? now
  | None => 0 <? now
  end.

Definition lockFields (userId_ lockId_ : string) (lockedAt_ : Z) (seat : Seat)
  : Seat :=
  {| id := id seat; row := row seat; number := number seat;
     status := LOCKED; userId := Some userId_; lockId := Some lockId_;
     lockedAt := Some lockedAt_;
     lockExpiresAt := Some (lockedAt_ + LOCK_DURATION);
     bookedAt := bookedAt seat |}.

Definition bookFields (bookedAt_ : Z) (seat : Seat) : Seat :=
  {| id := id seat; row := row seat; number := number seat;
     status := BOOKED; userId := userId seat; lockId := None;
     lockedAt := None; lockExpiresAt := None; bookedAt := Some bookedAt_ |}.

(** [getAllSeats]: sweep, then [Object.values(seats)]. *)
Definition getAllSeats (now : Z) (seats : gmap string Seat)
  : gmap string Seat * list Seat :=
  let seats := cleanupExpiredLocks now seats in
  (seats, (map_to_list seats).*2).

(** [getSeatById]: sweep, then [seats[seatId] || null]; [Undefined] stands
    for the [null] returned when the read is falsy. *)
Definition getSeatById (now : Z) (seatId : string) (seats : gmap string Seat)
  : gmap string Seat * Property :=
  let seats := cleanupExpiredLocks now seats in
  (seats, get seats seatId).

(** [lockSeat]: [now] is read by the sweep, [lockedAt_] by the
    [new Date()] that follows [uuidv4()], whose value is [lockId_]. *)
Definition lockSeat (seatId userId_ : string) (now lockedAt_ : Z)
    (lockId_ : string) (seats : gmap string Seat)
  : gmap string Seat * LockResult :=
  let seats := cleanupExpiredLocks now seats in
  match get seats seatId with
  | Undefined => (seats, LockSeatNotFound)
  | Inherited => (seats, LockConflict None)
  | Own seat =>
      if bool_decide (status seat ≠ AVAILABLE)
      then (seats, LockConflict (Some (status seat)))
      else
        let seat := lockFields userId_ lockId_ lockedAt_ seat in
        (<[seatId := seat]> seats,
         LockSuccess lockId_ (lockedAt_ + LOCK_DURATION) seat)
  end.

(** [confirmBooking]: [now] is read by the sweep, [checkedAt] by the expiry
    test, [bookedAt_] by the assignment of [seat.bookedAt]. *)
Definition confirmBooking (seatId userId_ lockId_ : string)
    (now checkedAt bookedAt_ : Z) (seats : gmap string Seat)
  : gmap string Seat * ConfirmResult :=
  let seats := cleanupExpiredLocks now seats in
  match get seats seatId with
  | Undefined => (seats, ConfirmSeatNotFound)
  | Inherited => (seats, ConfirmNotLocked None)
  | Own seat =>
      if bool_decide (status seat ≠ LOCKED)
      then (seats, ConfirmNotLocked (Some (status seat)))
      else if bool_decide (userId seat ≠ Some userId_)
      then (seats, ConfirmLockedByAnotherUser)
      else if bool_decide (lockId seat ≠ Some lockId_)
      then (seats, ConfirmInvalidLockId)
      else if dateAfter checkedAt (lockExpiresAt seat)
      then (<[seatId := clearLock seat]> seats, ConfirmLockExpired)
      else
        let seat := bookFields bookedAt_ seat in
        (<[seatId := seat]> seats, ConfirmSuccess seat)
  end.

(** [unlockSeat]: no sweep and no clock read. *)
Definition unlockSeat (seatId userId_ lockId_ : string)
    (seats : gmap string Seat)
  : gmap string Seat * UnlockResult :=
  match get seats seatId with
  | Undefined => (seats, UnlockSeatNotFound)
  | Inherited => (seats, UnlockNotLocked None)
  | Own seat =>
      if bool_decide (status seat ≠ LOCKED)
      then (seats, UnlockNotLocked (Some (status seat)))
      else if bool_decide (userId seat ≠ Some userId_)
                || bool_decide (lockId seat ≠ Some lockId_)
      then (seats, UnlockInvalidUserOrLockId)
      else
        let seat := clearLock seat in
        (<[seatId := seat]> seats, UnlockSuccess seat)
  end.

(** The [stats] object of [getStatistics]. *)
Record Statistics : Type := mkStatistics {
  total : Z;
  available : Z;
  locked : Z;
  booked : Z
}.

(** One iteration of the [forEach]: [stats.total++; stats[seat.status]++]. *)
Definition countSeat (seat : Seat) (stats : Statistics) : Statistics :=
  match status seat with
  | AVAILABLE => {| total := total stats + 1; available := available stats + 1;
                    locked := locked stats; booked := booked stats |}
  | LOCKED => {| total := total stats + 1; available := available stats;
                 locked := locked stats + 1; booked := booked stats |}
  | BOOKED => {| total := total stats + 1; available := available stats;
                 locked := locked stats; booked := booked stats + 1 |}
  end.

(** [getStatistics]: sweep, then count every seat. *)
Definition getStatistics (now : Z) (seats : gmap string Seat)
  : gmap string Seat * Statistics :=
  let seats := cleanupExpiredLocks now seats in
  (seats,
   foldr countSeat {| total := 0; available := 0; locked := 0; booked := 0 |}
         (map_to_list seats).*2).

(** [resetSeats]: [seats = initializeSeats()]. The [seatMutex.clear()] that
    follows does not touch the table; the runs of [EventLoop] below contain
    no reset. *)
Definition resetSeats (seats : gmap string Seat) : gmap string Seat :=
  initializeSeats.

(** ** Sequences of operations

    Between two [await]s JavaScript runs to completion, so the seat table
    only ever changes by whole executions of the blocks above, of the
    periodic sweep ([setInterval(cleanupExpiredLocks, 10000)]) and of
    [resetSeats]. An [Operation] is one such execution together with the
    values it reads from the clock and from [uuidv4]. *)
Inductive Operation : Type :=
  | OpGetAllSeats (now : Z)
  | OpGetSeatById (now : Z) (seatId : string)
  | OpLockSeat (seatId userId_ : string) (now lockedAt_ : Z) (lockId_ : string)
  | OpConfirmBooking (seatId userId_ lockId_ : string)
                     (now checkedAt bookedAt_ : Z)
  | OpUnlockSeat (seatId userId_ lockId_ : string)
  | OpGetStatistics (now : Z)
  | OpCleanup (now : Z)
  | OpResetSeats.

Definition perform (op : Operation) (seats : gmap string Seat)
  : gmap string Seat :=
  match op with
  | OpGetAllSeats now => (getAllSeats now seats).1
  | OpGetSeatById now seatId => (getSeatById now seatId seats).1
  | OpLockSeat seatId u now lockedAt_ lockId_ =>
      (lockSeat seatId u now lockedAt_ lockId_ seats).1
  | OpConfirmBooking seatId u l now checkedAt bookedAt_ =>
      (confirmBooking seatId u l now checkedAt bookedAt_ seats).1
  | OpUnlockSeat seatId u l => (unlockSeat seatId u l seats).1
  | OpGetStatistics now => (getStatistics now seats).1
  | OpCleanup now => cleanupExpiredLocks now seats
  | OpResetSeats => resetSeats seats
  end.

(** The table after the module is loaded ([let seats = initializeSeats()])
    and the operations of [ops] have run, first to last. *)
Definition run (ops : list Operation) : gmap string Seat :=
  foldl (fun seats op => perform op seats) initializeSeats ops.

(** The invariants of the data model, for one seat. *)
Definition seatInvariant (seat : Seat) : Prop :=
  (status seat = AVAILABLE ↔
     userId seat = None ∧ lockId seat = None ∧
     lockedAt seat = None ∧ lockExpiresAt seat = None)
  ∧ (status seat = LOCKED →
     is_Some (userId seat) ∧ is_Some (lockId seat) ∧
     ∃ issuedAt, lockedAt seat = Some issuedAt ∧
                 lockExpiresAt seat = Some (issuedAt + LOCK_DURATION))
  ∧ (status seat = BOOKED →
     is_Some (userId seat) ∧ is_Some (bookedAt seat) ∧
     lockId seat = None ∧ lockedAt seat = None ∧ lockExpiresAt seat = None).

(** A seat with no holder, no lock and no booking time. *)
Definition pristine (seat : Seat) : Prop :=
  status seat = AVAILABLE ∧ userId seat = None ∧ lockId seat = None ∧
  lockedAt seat = None ∧ lockExpiresAt seat = None ∧ bookedAt seat = None.

(** ** Predicates used in the statements *)

(** Whether a string has one of the letters a..z. The controller passes
    [id.toUpperCase()] to the model, which has none. *)
Definition lowerCaseLetter (c : ascii) : bool :=
  let n := nat_of_ascii c in (97 <=? n)%nat && (n <=? 122)%nat.

Fixpoint hasLowerCase (s : string) : bool :=
  match s with
  | EmptyString => false
  | String c s => lowerCaseLetter c || hasLowerCase s
  end.

(** The result has [success: false]. *)
Definition confirmFailed (r : ConfirmResult) : Prop :=
  match r with ConfirmSuccess _ => False | _ => True end.

Definition unlockFailed (r : UnlockResult) : Prop :=
  match r with UnlockSuccess _ => False | _ => True end.

(** A seat locked at [issuedAt] for [LOCK_DURATION]. *)
Definition lockedSince (issuedAt : Z) (seat : Seat) : Prop :=
  status seat = LOCKED ∧ lockedAt seat = Some issuedAt
  ∧ lockExpiresAt seat = Some (issuedAt + LOCK_DURATION).

(** The table after one seat was locked at time 0 by its first caller. *)
Definition oneLock : gmap string Seat :=
  run [OpLockSeat "A1" "alice" 0 0 "lock-1"]%string.

(** The status a caller of [getSeatById] reads in the returned value. *)
Definition observedStatus (p : Property) : option Status :=
  match p with
  | Own seat => Some (status seat)
  | _ => None
  end.

(** Every seat of the table satisfies the invariants. *)
Definition tableInvariant (seats : gmap string Seat) : Prop :=
  map_Forall (fun _ seat => seatInvariant seat) seats.

(** ** The busy-wait mutex and the event loop

    [seatMutex] is a [Map] used as a set of seat identifiers. An [async]
    method first runs [acquireMutex]: [checkMutex] either finds the
    identifier absent, sets it and resolves the promise, or re-arms itself
    with [setTimeout(checkMutex, 1)]. The code after the [await] (the [try]
    block and the [finally] with [releaseMutex]) is a later job of its own.
    JavaScript runs one job at a time, to completion; which job comes next is
    left open here, so every interleaving of the calls is covered. *)
Module EventLoop.

(** A call of one of the three [async] methods with its arguments. *)
Inductive Request : Type :=
  | LockSeat (seatId userId_ : string)
  | ConfirmBooking (seatId userId_ lockId_ : string)
  | UnlockSeat (seatId userId_ lockId_ : string).

Definition target (req : Request) : string :=
  match req with
  | LockSeat seatId _ => seatId
  | ConfirmBooking seatId _ _ => seatId
  | UnlockSeat seatId _ _ => seatId
  end.

Inductive Response : Type :=
  | Locking (r : LockResult)
  | Confirming (r : ConfirmResult)
  | Unlocking (r : UnlockResult).

(** Where a call stands: its [checkMutex] has not yet succeeded; it has set
    the mutex and its continuation is queued; its promise is settled. *)
Inductive Call : Type :=
  | Polling (req : Request)
  | Holding (req : Request)
  | Settled (req : Request) (resp : Response).

Definition request (c : Call) : Request :=
  match c with
  | Polling req => req
  | Holding req => req
  | Settled req _ => req
  end.

Definition settled (c : Call) : bool :=
  match c with Settled _ _ => true | _ => false end.

(** The module-level state and the calls in flight. *)
Record State : Type := mkState {
  seats : gmap string Seat;
  seatMutex : gset string;
  calls : list Call
}.

(** The values a continuation reads: three clock reads at most, in order,
    and one identifier from [uuidv4]. *)
Record Reads : Type := mkReads {
  first : Z;
  second : Z;
  third : Z;
  uuid : string
}.

(** [checkMutex]: [None] when the identifier is present (the timer is
    re-armed), the mutex with the identifier set otherwise. *)
Definition checkMutex (seatId : string) (mutex : gset string)
  : option (gset string) :=
  if decide (seatId ∈ mutex) then None else Some ({[seatId]} ∪ mutex).

(** [releaseMutex]: [seatMutex.delete(seatId)]. *)
Definition releaseMutex (seatId : string) (mutex : gset string) : gset string :=
  mutex ∖ {[seatId]}.

(** The [try] block of the method called. *)
Definition tryBlock (req : Request) (rd : Reads) (table : gmap string Seat)
  : gmap string Seat * Response :=
  match req with
  | LockSeat seatId u =>
      let '(table, r) := lockSeat seatId u (first rd) (second rd) (uuid rd) table in
      (table, Locking r)
  | ConfirmBooking seatId u l =>
      let '(table, r) :=
        confirmBooking seatId u l (first rd) (second rd) (third rd) table in
      (table, Confirming r)
  | UnlockSeat seatId u l =>
      let '(table, r) := unlockSeat seatId u l table in
      (table, Unlocking r)
  end.

(** The jobs the event loop runs: the [checkMutex] of call [i] (the first
    one inside the call itself, the later ones from the timer), the
    continuation of call [i] after its [await], and a job that only sweeps
    (the interval timer or one of the read accessors). *)
Inductive Job : Type :=
  | CheckMutex (i : nat)
  | Continue (i : nat) (rd : Reads)
  | Sweep (now : Z).

(** One job, run to completion. A job that is not pending (no such call, or
    the call is in another phase) does not run. *)
Definition step (st : State) (job : Job) : State :=
  match job with
  | CheckMutex i =>
      match calls st !! i with
      | Some (Polling req) =>
          match checkMutex (target req) (seatMutex st) with
          | Some mutex =>
              {| seats := seats st; seatMutex := mutex;
                 calls := <[i := Holding req]> (calls st) |}
          | None => st
          end
      | _ => st
      end
  | Continue i rd =>
      match calls st !! i with
      | Some (Holding req) =>
          let '(table, resp) := tryBlock req rd (seats st) in
          {| seats := table;
             seatMutex := releaseMutex (target req) (seatMutex st);
             calls := <[i := Settled req resp]> (calls st) |}
      | _ => st
      end
  | Sweep now =>
      {| seats := cleanupExpiredLocks now (seats st);
         seatMutex := seatMutex st; calls := calls st |}
  end.

Definition runJobs (st : State) (jobs : list Job) : State :=
  foldl step st jobs.

(** The calls are made on a table with no mutex set. *)
Definition start (table : gmap string Seat) (reqs : list Request) : State :=
  {| seats := table; seatMutex := ∅; calls := Polling <$> reqs |}.

(** Every clock read of the job lies in [from, from + LOCK_DURATION]. *)
Definition readsWithin (from : Z) (rd : Reads) : Prop :=
  (from ≤ first rd ≤ from + LOCK_DURATION)
  ∧ (from ≤ second rd ≤ from + LOCK_DURATION)
  ∧ (from ≤ third rd ≤ from + LOCK_DURATION).

Definition jobWithin (from : Z) (job : Job) : Prop :=
  match job with
  | CheckMutex _ => True
  | Continue _ rd => readsWithin from rd
  | Sweep now => from ≤ now ≤ from + LOCK_DURATION
  end.

(** The mutex is set for a seat exactly when some call holds it, and no two
    calls hold the same seat. *)
Definition mutualExclusion (st : State) : Prop :=
  (∀ seatId, seatId ∈ seatMutex st ↔
     ∃ i req, calls st !! i = Some (Holding req) ∧ target req = seatId)
  ∧ (∀ i j reqi reqj,
       calls st !! i = Some (Holding reqi) →
       calls st !! j = Some (Holding reqj) →
       target reqi = target reqj → i = j).

End EventLoop.

Import EventLoop.

(** The state of [users.length] simultaneous [lockSeat] calls on one seat, at
    any point of a run of jobs among [jobs] whose clock reads start at
    [from]: either the seat is still available and no call has returned, or
    one call has returned with the lock the seat now carries, made of the
    [uuidv4()] value and the clock read of a continuation of that very call,
    and every other call that has returned got the conflict failure. *)
Definition contended (seatId : string) (users : list string) (from : Z)
    (jobs : list Job) (st : State) : Prop :=
  request <$> calls st = LockSeat seatId <$> users
  ∧ ((∃ seat, seats st !! seatId = Some seat ∧ status seat = AVAILABLE
              ∧ ∀ j c, calls st !! j = Some c → settled c = false)
     ∨ (∃ i u rd seat,
          Continue i rd ∈ jobs
          ∧ seats st !! seatId
            = Some (lockFields u (uuid rd) (second rd) seat)
          ∧ from ≤ second rd
          ∧ calls st !! i
            = Some (Settled (LockSeat seatId u)
                      (Locking (LockSuccess (uuid rd)
                                  (second rd + LOCK_DURATION)
                                  (lockFields u (uuid rd) (second rd) seat))))
          ∧ ∀ j c, j ≠ i → calls st !! j = Some c → settled c = true →
                   c = Settled (request c) (Locking (LockConflict (Some LOCKED))))).

(** The state after the jobs [jobs] of a run that starts with one
    [lockSeat] call on [seatId] per user of [users]. *)
Definition contest (seatId : string) (users : list string)
    (table : gmap string Seat) (jobs : list Job) : State :=
  runJobs (start table (LockSeat seatId <$> users)) jobs.

(** Every call made has returned. *)
Definition allSettled (st : State) : Prop :=
  ∀ j c, calls st !! j = Some c → settled c = true.

(** A schedule: each call in turn runs its [checkMutex] and then its
    continuation. *)
Definition oneAfterAnother (rd : Reads) (k n : nat) : list Job :=
  flat_map (fun i => [CheckMutex i; Continue i rd]) (seq k n).

(** Each call in turn, twice over. *)
Definition twoRounds (rd : Reads) (n : nat) : list Job :=
  oneAfterAnother rd 0 n ++ oneAfterAnother rd 0 n.

(** The call has returned with [success: true]. *)
Definition succeeded (c : Call) : bool :=
  match c with
  | Settled _ (Locking (LockSuccess _ _ _)) => true
  | _ => false
  end.

(** How many calls have returned with [success: true]. *)
Definition successes (st : State) : nat :=
  length (filter (fun c => succeeded c = true) (calls st)).

(** Three users ask for seat A5 in the same tick: the three first polls, the
    first continuation, then in timer order the re-polls and continuations
    of the other two, with a sweep in between. *)
Definition threeUsers : list string := ["alice"; "bob"; "carol"]%string.

Definition threeCalls : list Job :=
  [ CheckMutex 0; CheckMutex 1; CheckMutex 2;
    Continue 0 {| first := 1000; second := 1000; third := 1000; uuid := "lock-1" |};
    CheckMutex 1;
    Continue 1 {| first := 1002; second := 1002; third := 1002; uuid := "lock-2" |};
    Sweep 1003;
    CheckMutex 2;
    Continue 2 {| first := 1004; second := 1004; third := 1004; uuid := "lock-3" |} ].

(** Two users ask for seat A5 in the same tick; the second call polls
    again, and continues, more than [LOCK_DURATION] after the first call
    took its lock. *)
Definition lateCalls : list Job :=
  [ CheckMutex 0; CheckMutex 1;
    Continue 0 {| first := 0; second := 0; third := 0; uuid := "lock-1" |};
    CheckMutex 1;
    Continue 1 {| first := 60001; second := 60001; third := 60001;
                  uuid := "lock-2" |} ].

(** The table after seat A5 was locked and booked by its first caller. *)
Definition oneBooking : gmap string Seat :=
  run [OpLockSeat "A5" "alice" 0 0 "lock-1";
       OpConfirmBooking "A5" "alice" "lock-1" 1 1 1]%string.

(** ** Further definitions: identity, counting, sequences of operations *)

(** The fields of a seat that [initializeSeats] sets and no operation
    assigns again. *)
Definition identity (seat : Seat) : string * string * Z :=
  (id seat, row seat, number seat).

(** The operations of [ops], first to last, on a given table. *)
Definition performAll (seats : gmap string Seat) (ops : list Operation)
  : gmap string Seat :=
  foldl (fun seats op => perform op seats) seats ops.

Definition isReset (op : Operation) : bool :=
  match op with OpResetSeats => true | _ => false end.

(** How many seats of a list have the given status. *)
Definition countStatus (st : Status) (l : list Seat) : Z :=
  Z.of_nat (length (filter (fun seat => status seat = st) l)).

(** ** Further definitions: runs of the event loop *)

(** The call has set its mutex and has not run its continuation yet. *)
Definition holding (c : Call) : bool :=
  match c with Holding _ => true | _ => false end.

(** One [lockSeat] call per pair of a seat identifier and a user. *)
Definition lockRequests (pairs : list (string * string)) : list Request :=
  (fun p => LockSeat p.1 p.2) <$> pairs.

(** The state of [lockSeat] calls that all address different seats: a call
    that has returned has succeeded for its user, and the seat of a call
    that has not is available. *)
Definition uncontended (pairs : list (string * string)) (st : State) : Prop :=
  request <$> calls st = lockRequests pairs
  ∧ ∀ i c, calls st !! i = Some c →
      match c with
      | Settled req resp =>
          ∃ u lid expiresAt seat,
            req = LockSeat (target req) u
            ∧ resp = Locking (LockSuccess lid expiresAt seat)
            ∧ userId seat = Some u
      | _ => ∃ seat, seats st !! target (request c) = Some seat
                     ∧ status seat = AVAILABLE
      end.

(** ** Further definitions: the texts of the results *)

(** [`${seat.status}`]: the status as it appears in an interpolated text. *)
Definition statusText (st : option Status) : string :=
  match st with
  | Some AVAILABLE => "available"
  | Some LOCKED => "locked"
  | Some BOOKED => "booked"
  | None => "undefined"
  end.

(** The [error] property of a failed [lockSeat] result. *)
Definition lockSeatError (seatId : string) (r : LockResult) : option string :=
  match r with
  | LockSuccess _ _ _ => None
  | LockSeatNotFound => Some "Seat not found"
  | LockConflict st => Some ("Seat " ++ seatId ++ " is " ++ statusText st)
  end%string.

(** The [currentStatus] property of a [lockSeat] result. *)
Definition lockSeatCurrentStatus (r : LockResult) : option Status :=
  match r with
  | LockConflict st => st
  | _ => None
  end.

(** The [error] property of a failed [confirmBooking] result. *)
Definition confirmBookingError (seatId : string) (r : ConfirmResult)
  : option string :=
  match r with
  | ConfirmSuccess _ => None
  | ConfirmSeatNotFound => Some "Seat not found"
  | ConfirmNotLocked st =>
      Some ("Seat " ++ seatId ++ " is not locked. Current status: "
              ++ statusText st)
  | ConfirmLockedByAnotherUser =>
      Some ("Seat " ++ seatId ++ " is locked by another user")
  | ConfirmInvalidLockId => Some ("Invalid lock ID for seat " ++ seatId)
  | ConfirmLockExpired => Some ("Lock for seat " ++ seatId ++ " has expired")
  end%string.

(** The [error] property of a failed [unlockSeat] result. *)
Definition unlockSeatError (seatId : string) (r : UnlockResult)
  : option string :=
  match r with
  | UnlockSuccess _ => None
  | UnlockSeatNotFound => Some "Seat not found"
  | UnlockNotLocked st =>
      Some ("Seat " ++ seatId ++ " is not locked. Current status: "
              ++ statusText st)
  | UnlockInvalidUserOrLockId =>
      Some ("Cannot unlock seat " ++ seatId ++ ". Invalid user or lock ID")
  end%string.

(** [s.startsWith(pat)] and [s.includes(pat)]. *)
Fixpoint startsWith (pat s : string) : bool :=
  match pat, s with
  | EmptyString, _ => true
  | String a pat, String b s => Ascii.eqb a b && startsWith pat s
  | String _ _, EmptyString => false
  end.

Fixpoint includes (pat s : string) : bool :=
  startsWith pat s
  || match s with
     | EmptyString => false
     | String _ s => includes pat s
     end.

(** Upper-casing of the letters a..z, byte by byte: what [toUpperCase] does
    on a string of ASCII characters. *)
Definition upperCaseLetter (c : ascii) : ascii :=
  if lowerCaseLetter c then ascii_of_nat (nat_of_ascii c - 32) else c.

Fixpoint asciiUpperCase (s : string) : string :=
  match s with
  | EmptyString => EmptyString
  | String c s => String (upperCaseLetter c) (asciiUpperCase s)
  end.

(** ** SeatController

    The handlers of [src/controllers/seatController.js] for the routes that
    take a seat identifier, and for the list. A handler reads [req.params.id]
    and the fields of [req.body], which are strings or absent here; it
    upper-cases the identifier with [toUpperCase], a parameter of the
    handlers below; it awaits the method of [SeatModel] (whose [try] block
    runs on the table as it is when the mutex is obtained); and it answers
    with a status code and a JSON body. The [success] flag of a body is
    implied by its constructor. No method of the model throws, so the
    [catch] branches answering 500 are not reached. *)
Module SeatController.

Record Response (Json : Type) : Type := mkResponse {
  statusCode : Z;
  json : Json
}.
Arguments mkResponse {Json} _ _.
Arguments statusCode {Json} _.
Arguments json {Json} _.

(** [!field] for a field that is a string or absent. *)
Definition missing (field : option string) : bool :=
  match field with
  | None => true
  | Some EmptyString => true
  | Some _ => false
  end.

(** The value passed on for a field that is not missing. *)
Definition value (field : option string) : string :=
  match field with
  | Some s => s
  | None => EmptyString
  end.

Inductive GetSeatJson : Type :=
  | GetSeatData (data : Property)
  | GetSeatNotFound (error : string).

(** [getSeat]: GET /seats/:id. *)
Definition getSeat (toUpperCase : string → string) (id_ : string) (now : Z)
    (seats : gmap string Seat)
  : gmap string Seat * Response GetSeatJson :=
  let '(seats, seat) := getSeatById now (toUpperCase id_) seats in
  match seat with
  | Undefined =>
      (seats, mkResponse 404 (GetSeatNotFound ("Seat " ++ id_ ++ " not found")))
  | _ => (seats, mkResponse 200 (GetSeatData seat))
  end.

Inductive LockSeatJson : Type :=
  | LockSeatData (message seatId lockId_ : string) (lockExpiresAt_ : Z)
                 (seat : Seat) (lockDurationMinutes : Z)
  | LockSeatFailure (error : string) (currentStatus : option Status)
  | UserIdRequired.

(** [lockSeat]: POST /seats/:id/lock. *)
Definition lockSeat (toUpperCase : string → string) (id_ : string)
    (userId_ : option string) (now lockedAt_ : Z) (newLockId : string)
    (seats : gmap string Seat)
  : gmap string Seat * Response LockSeatJson :=
  if missing userId_ then (seats, mkResponse 400 UserIdRequired)
  else
    let seatId := toUpperCase id_ in
    let '(seats, result) :=
      lockSeat seatId (value userId_) now lockedAt_ newLockId seats in
    match result with
    | LockSuccess lockId_ lockExpiresAt_ seat =>
        (seats,
         mkResponse 200
           (LockSeatData ("Seat " ++ seatId ++ " locked successfully")
              seatId lockId_ lockExpiresAt_ seat 1))
    | _ =>
        let error := value (lockSeatError seatId result) in
        (seats,
         mkResponse (if includes "not found" error then 404 else 409)
           (LockSeatFailure error (lockSeatCurrentStatus result)))
    end.

Inductive ConfirmBookingJson : Type :=
  | ConfirmBookingData (message seatId : string) (seat : Seat)
                       (bookedAt_ : option Z)
  | ConfirmBookingFailure (error : string)
  | UserIdAndLockIdRequired.

(** [confirmBooking]: POST /seats/:id/confirm. *)
Definition confirmBooking (toUpperCase : string → string) (id_ : string)
    (userId_ lockId_ : option string) (now checkedAt bookedAt_ : Z)
    (seats : gmap string Seat)
  : gmap string Seat * Response ConfirmBookingJson :=
  if missing userId_ || missing lockId_
  then (seats, mkResponse 400 UserIdAndLockIdRequired)
  else
    let seatId := toUpperCase id_ in
    let '(seats, result) :=
      confirmBooking seatId (value userId_) (value lockId_)
        now checkedAt bookedAt_ seats in
    match result with
    | ConfirmSuccess seat =>
        (seats,
         mkResponse 201
           (ConfirmBookingData ("Seat " ++ seatId ++ " booked successfully")
              seatId seat (bookedAt seat)))
    | _ =>
        let error := value (confirmBookingError seatId result) in
        (seats,
         mkResponse (if includes "not found" error then 404
                     else if includes "expired" error then 410 else 409)
           (ConfirmBookingFailure error))
    end.

Inductive UnlockSeatJson : Type :=
  | UnlockSeatData (message seatId : string) (seat : Seat)
  | UnlockSeatFailure (error : string)
  | UnlockFieldsRequired.

(** [unlockSeat]: DELETE /seats/:id/unlock. *)
Definition unlockSeat (toUpperCase : string → string) (id_ : string)
    (userId_ lockId_ : option string) (seats : gmap string Seat)
  : gmap string Seat * Response UnlockSeatJson :=
  if missing userId_ || missing lockId_
  then (seats, mkResponse 400 UnlockFieldsRequired)
  else
    let seatId := toUpperCase id_ in
    let '(seats, result) :=
      unlockSeat seatId (value userId_) (value lockId_) seats in
    match result with
    | UnlockSuccess seat =>
        (seats,
         mkResponse 200
           (UnlockSeatData ("Seat " ++ seatId ++ " unlocked successfully")
              seatId seat))
    | _ =>
        let error := value (unlockSeatError seatId result) in
        (seats,
         mkResponse (if includes "not found" error then 404 else 403)
           (UnlockSeatFailure error))
    end.

(** The [data] of the answer to GET /seats; [timestamp] is the time whose
    ISO text is sent. *)
Record AllSeatsJson : Type := mkAllSeatsJson {
  data_seats : list Seat;
  data_statistics : Statistics;
  layout_rows : list string;
  layout_seatsPerRow : Z;
  layout_total : Z;
  timestamp : Z
}.

(** [res.json(...)] writes the seat objects as they are when it is called.
    The array of [SeatModel.getAllSeats] holds the stored objects
    themselves, not copies: a member is given by the key it is stored
    under, and what is sent for it is the object found there at the time of
    the call. *)
Definition sent (keys : list string) (seats : gmap string Seat) : list Seat :=
  omap (fun seatId => seats !! seatId) keys.

(** [getAllSeats]: GET /seats. The list and the statistics come from two
    calls of the model, each with its own sweep and clock read. The sweep
    of [getStatistics] changes the listed objects in place, and the answer
    is written after it. *)
Definition getAllSeats (listedAt countedAt sentAt : Z)
    (seats : gmap string Seat)
  : gmap string Seat * Response AllSeatsJson :=
  let '(seats, _) := getAllSeats listedAt seats in
  let listed := (map_to_list seats).*1 in
  let '(seats, stats) := getStatistics countedAt seats in
  (seats,
   mkResponse 200
     {| data_seats := sent listed seats; data_statistics := stats;
        layout_rows := ["A"; "B"; "C"; "D"; "E"]%string;
        layout_seatsPerRow := 8; layout_total := 40; timestamp := sentAt |}).

End SeatController.

(** ** Basic facts about the sweep and the property read *)

Lemma lookup_cleanup now (seats : gmap string Seat) seatId :
  cleanupExpiredLocks now seats !! seatId = expire now <$> seats !! seatId.
Proof. unfold cleanupExpiredLocks. apply lookup_fmap. Qed.

Lemma lockExpired_clearLock now seat : lockExpired now (clearLock seat) = false.
Proof. reflexivity. Qed.

Lemma expire_idemp now seat : expire now (expire now seat) = expire now seat.
Proof.
  unfold expire at 2 3. destruct (lockExpired now seat) eqn:E.
  - unfold expire. by rewrite lockExpired_clearLock.
  - unfold expire. by rewrite E.
Qed.

Lemma cleanup_idemp now (seats : gmap string Seat) :
  cleanupExpiredLocks now (cleanupExpiredLocks now seats)
  = cleanupExpiredLocks now seats.
Proof.
  apply map_eq; intros k. rewrite !lookup_cleanup.
  destruct (seats !! k); simpl; [by rewrite expire_idemp | done].
Qed.

Lemma expire_not_locked now seat : status seat ≠ LOCKED → expire now seat = seat.
Proof.
  intros H. unfold expire, lockExpired. by destruct (status seat).
Qed.

Lemma get_own (seats : gmap string Seat) seatId seat :
  seats !! seatId = Some seat → get seats seatId = Own seat.
Proof. intros H. unfold get. by rewrite H. Qed.

Lemma get_undefined (seats : gmap string Seat) seatId :
  seats !! seatId = None → inherited seatId = false →
  get seats seatId = Undefined.
Proof. intros H1 H2. unfold get. by rewrite H1, H2. Qed.

Lemma get_inherited (seats : gmap string Seat) seatId :
  seats !! seatId = None → inherited seatId = true →
  get seats seatId = Inherited.
Proof. intros H1 H2. unfold get. by rewrite H1, H2. Qed.

(** An upper-cased identifier is never the name of a member inherited from
    [Object.prototype]: each of those names has a lower-case letter. *)
Lemma upper_case_not_inherited seatId :
  hasLowerCase seatId = false → inherited seatId = false.
Proof.
  intros H. unfold inherited. apply bool_decide_eq_false. intros Hin.
  unfold Object_prototype_names in Hin.
  repeat (apply elem_of_cons in Hin as [-> | Hin]; [by vm_compute in H |]).
  by apply elem_of_nil in Hin.
Qed.

(** ** lockSeat *)

Lemma lockSeat_available seatId u now lockedAt_ lid seats seat :
  cleanupExpiredLocks now seats !! seatId = Some seat →
  status seat = AVAILABLE →
  lockSeat seatId u now lockedAt_ lid seats
  = (<[seatId := lockFields u lid lockedAt_ seat]> (cleanupExpiredLocks now seats),
     LockSuccess lid (lockedAt_ + LOCK_DURATION) (lockFields u lid lockedAt_ seat)).
Proof.
  intros Hs Ha. unfold lockSeat. rewrite (get_own _ _ _ Hs).
  rewrite bool_decide_eq_false_2; [done | by rewrite Ha; intros []].
Qed.

Lemma lockSeat_unavailable seatId u now lockedAt_ lid seats seat :
  cleanupExpiredLocks now seats !! seatId = Some seat →
  status seat ≠ AVAILABLE →
  lockSeat seatId u now lockedAt_ lid seats
  = (cleanupExpiredLocks now seats, LockConflict (Some (status seat))).
Proof.
  intros Hs Ha. unfold lockSeat. rewrite (get_own _ _ _ Hs).
  by rewrite bool_decide_eq_true_2.
Qed.

Lemma lockSeat_missing seatId u now lockedAt_ lid seats :
  cleanupExpiredLocks now seats !! seatId = None →
  inherited seatId = false →
  lockSeat seatId u now lockedAt_ lid seats
  = (cleanupExpiredLocks now seats, LockSeatNotFound).
Proof.
  intros Hs Hi. unfold lockSeat. by rewrite (get_undefined _ _ Hs Hi).
Qed.

(** What [lockSeat] does for a name inherited from [Object.prototype]: the
    read is truthy, its [status] is [undefined], and the call answers with
    the not-available failure. *)
Lemma lockSeat_inherited_name u now lockedAt_ lid :
  lockSeat "constructor" u now lockedAt_ lid initializeSeats
  = (cleanupExpiredLocks now initializeSeats, LockConflict None).
Proof.
  unfold lockSeat. rewrite get_inherited; [done | | done].
  rewrite lookup_cleanup. by vm_compute.
Qed.

(** The three outcomes of [lockSeat] after its sweep: an existing, available
    seat is locked with the generated identifier, holder [userId],
    [lockedAt] the time read and [lockExpiresAt] 60000 ms later, and the
    call returns the identifier, the expiry and a copy of the seat; a seat
    that is not available gives the conflict failure with its status; an
    identifier with no seat that is not the name of a member of
    [Object.prototype] gives the not-found failure. *)
Theorem lockSeat_outcomes seatId u now lockedAt_ lid seats :
  LOCK_DURATION = 60000 ∧
  (∀ seat,
     cleanupExpiredLocks now seats !! seatId = Some seat →
     status seat = AVAILABLE →
     ∃ seat',
       lockSeat seatId u now lockedAt_ lid seats
       = (<[seatId := seat']> (cleanupExpiredLocks now seats),
          LockSuccess lid (lockedAt_ + LOCK_DURATION) seat')
       ∧ status seat' = LOCKED ∧ userId seat' = Some u
       ∧ lockId seat' = Some lid ∧ lockedAt seat' = Some lockedAt_
       ∧ lockExpiresAt seat' = Some (lockedAt_ + LOCK_DURATION)
       ∧ id seat' = id seat ∧ row seat' = row seat
       ∧ number seat' = number seat ∧ bookedAt seat' = bookedAt seat)
  ∧ (∀ seat,
       cleanupExpiredLocks now seats !! seatId = Some seat →
       status seat ≠ AVAILABLE →
       lockSeat seatId u now lockedAt_ lid seats
       = (cleanupExpiredLocks now seats, LockConflict (Some (status seat))))
  ∧ (cleanupExpiredLocks now seats !! seatId = None →
     inherited seatId = false →
     lockSeat seatId u now lockedAt_ lid seats
     = (cleanupExpiredLocks now seats, LockSeatNotFound)).
Proof.
  split; [reflexivity |]. split; [| split].
  - intros seat Hs Ha. exists (lockFields u lid lockedAt_ seat).
    split; [by apply lockSeat_available |]. by repeat split.
  - intros seat Hs Ha. by apply lockSeat_unavailable.
  - intros Hs Hi. by apply lockSeat_missing.
Qed.

(** C3. The not-found failure of [lockSeat] is missed for an identifier
    that names no seat but a member of [Object.prototype]: the read
    [this.seats[seatId]] yields the inherited member, which passes
    [if (!seat)], and the call answers with the failure of a seat that is
    not available, [currentStatus] being [undefined]. So it is for
    [lockSeat('constructor', userId)] on the initial registry, which has no
    seat of that name, and for each of the inherited names on every registry
    without a seat of that name. *)
Theorem lockSeat_misses_inherited_names u now lockedAt_ lid :
  initializeSeats !! "constructor" = None
  ∧ lockSeat "constructor" u now lockedAt_ lid initializeSeats
    = (cleanupExpiredLocks now initializeSeats, LockConflict None)
  ∧ (lockSeat "constructor" u now lockedAt_ lid initializeSeats).2
    ≠ LockSeatNotFound
  ∧ lockSeatError "constructor" (LockConflict None)
    = Some "Seat constructor is undefined"
  ∧ (∀ seatId seats,
       seatId ∈ Object_prototype_names →
       seats !! seatId = None →
       lockSeat seatId u now lockedAt_ lid seats
       = (cleanupExpiredLocks now seats, LockConflict None)).
Proof.
  assert (∀ seatId seats,
            seatId ∈ Object_prototype_names →
            seats !! seatId = None →
            lockSeat seatId u now lockedAt_ lid seats
            = (cleanupExpiredLocks now seats, LockConflict None)) as Hall.
  { intros seatId seats Hin Hs. unfold lockSeat.
    rewrite get_inherited; [done | |].
    - rewrite lookup_cleanup. by rewrite Hs.
    - unfold inherited. by apply bool_decide_eq_true. }
  assert (initializeSeats !! "constructor" = None) as Hnone
    by (by vm_compute).
  assert ("constructor" ∈ Object_prototype_names) as Hin.
  { unfold Object_prototype_names. apply elem_of_cons. by left. }
  split; [exact Hnone |]. split; [by apply Hall |].
  split; [by rewrite (Hall _ _ Hin Hnone) |].
  split; [reflexivity | exact Hall].
Qed.

(** ** confirmBooking *)

Lemma dateAfter_Some now expiresAt :
  dateAfter now (Some expiresAt) = true ↔ expiresAt < now.
Proof. simpl. apply Z.ltb_lt. Qed.

Ltac decide_guards :=
  repeat match goal with
         | |- context [bool_decide ?P] =>
             first [ rewrite (bool_decide_eq_true_2 P) by congruence
                   | rewrite (bool_decide_eq_false_2 P) by (intros ?; congruence) ]
         end.

(** C2. On an existing seat [confirmBooking] sweeps and then tests, in this
    order: the status (not locked: failure carrying the status), the holder
    (locked by another user), the lock identifier (invalid lock id), the
    expiry against a new clock read (the seat goes back to available with
    holder and lock fields cleared, and the call fails as expired); when all
    pass the seat becomes booked, [bookedAt] is the time read, the lock
    fields are cleared and the holder is kept. *)
Theorem confirmBooking_checks seatId u l now checkedAt bookedAt_ seats seat :
  cleanupExpiredLocks now seats !! seatId = Some seat →
  (status seat ≠ LOCKED →
     confirmBooking seatId u l now checkedAt bookedAt_ seats
     = (cleanupExpiredLocks now seats, ConfirmNotLocked (Some (status seat))))
  ∧ (status seat = LOCKED → userId seat ≠ Some u →
     confirmBooking seatId u l now checkedAt bookedAt_ seats
     = (cleanupExpiredLocks now seats, ConfirmLockedByAnotherUser))
  ∧ (status seat = LOCKED → userId seat = Some u → lockId seat ≠ Some l →
     confirmBooking seatId u l now checkedAt bookedAt_ seats
     = (cleanupExpiredLocks now seats, ConfirmInvalidLockId))
  ∧ (status seat = LOCKED → userId seat = Some u → lockId seat = Some l →
     dateAfter checkedAt (lockExpiresAt seat) = true →
     ∃ seat',
       confirmBooking seatId u l now checkedAt bookedAt_ seats
       = (<[seatId := seat']> (cleanupExpiredLocks now seats), ConfirmLockExpired)
       ∧ status seat' = AVAILABLE ∧ userId seat' = None ∧ lockId seat' = None
       ∧ lockedAt seat' = None ∧ lockExpiresAt seat' = None)
  ∧ (status seat = LOCKED → userId seat = Some u → lockId seat = Some l →
     dateAfter checkedAt (lockExpiresAt seat) = false →
     ∃ seat',
       confirmBooking seatId u l now checkedAt bookedAt_ seats
       = (<[seatId := seat']> (cleanupExpiredLocks now seats), ConfirmSuccess seat')
       ∧ status seat' = BOOKED ∧ bookedAt seat' = Some bookedAt_
       ∧ lockId seat' = None ∧ lockedAt seat' = None
       ∧ lockExpiresAt seat' = None ∧ userId seat' = Some u)
  ∧ (∀ expiresAt,
       dateAfter checkedAt (Some expiresAt) = true ↔ expiresAt < checkedAt).
Proof.
  intros Hs. unfold confirmBooking. rewrite (get_own _ _ _ Hs).
  repeat split.
  - intros H. by decide_guards.
  - intros H1 H2. by decide_guards.
  - intros H1 H2 H3. by decide_guards.
  - intros H1 H2 H3 H4. exists (clearLock seat). decide_guards.
    rewrite H4. by repeat split.
  - intros H1 H2 H3 H4. exists (bookFields bookedAt_ seat). decide_guards.
    rewrite H4. by repeat split.
  - apply dateAfter_Some.
  - apply dateAfter_Some.
Qed.

(** ** unlockSeat *)

(** C7. On an existing seat [unlockSeat] fails as not locked when the status
    is not 'locked'; fails with the one invalid-user-or-lock failure when the
    holder or the lock identifier differs; otherwise makes the seat
    available with holder and lock fields cleared. No clock is read, so the
    outcome does not depend on the lock's expiry. *)
Theorem unlockSeat_outcomes seatId u l (seats : gmap string Seat) seat :
  seats !! seatId = Some seat →
  (status seat ≠ LOCKED →
     unlockSeat seatId u l seats = (seats, UnlockNotLocked (Some (status seat))))
  ∧ (status seat = LOCKED → userId seat ≠ Some u ∨ lockId seat ≠ Some l →
     unlockSeat seatId u l seats = (seats, UnlockInvalidUserOrLockId))
  ∧ (status seat = LOCKED → userId seat = Some u → lockId seat = Some l →
     ∃ seat',
       unlockSeat seatId u l seats = (<[seatId := seat']> seats, UnlockSuccess seat')
       ∧ status seat' = AVAILABLE ∧ userId seat' = None ∧ lockId seat' = None
       ∧ lockedAt seat' = None ∧ lockExpiresAt seat' = None).
Proof.
  intros Hs. unfold unlockSeat. rewrite (get_own _ _ _ Hs).
  repeat split.
  - intros H. by decide_guards.
  - intros H1 [H2 | H2]; decide_guards; [done |].
    by rewrite orb_true_r.
  - intros H1 H2 H3. exists (clearLock seat). decide_guards.
    by repeat split.
Qed.

(** ** Failures leave the seat as found *)

Lemma confirmBooking_cases seatId u l now checkedAt bookedAt_ seats :
  let swept := cleanupExpiredLocks now seats in
  (∃ r, confirmBooking seatId u l now checkedAt bookedAt_ seats = (swept, r)
        ∧ confirmFailed r ∧ r ≠ ConfirmLockExpired)
  ∨ (∃ seat, swept !! seatId = Some seat ∧ status seat = LOCKED
             ∧ confirmBooking seatId u l now checkedAt bookedAt_ seats
               = (<[seatId := clearLock seat]> swept, ConfirmLockExpired))
  ∨ (∃ seat, swept !! seatId = Some seat ∧ status seat = LOCKED
             ∧ userId seat = Some u
             ∧ confirmBooking seatId u l now checkedAt bookedAt_ seats
               = (<[seatId := bookFields bookedAt_ seat]> swept,
                  ConfirmSuccess (bookFields bookedAt_ seat))).
Proof.
  intros swept. unfold confirmBooking. fold swept. unfold get.
  destruct (swept !! seatId) as [seat |] eqn:Hs.
  - case_bool_decide as H1; [left; eexists; by repeat split |].
    case_bool_decide as H2; [left; eexists; by repeat split |].
    case_bool_decide as H3; [left; eexists; by repeat split |].
    assert (status seat = LOCKED) by (by destruct (decide (status seat = LOCKED))).
    assert (userId seat = Some u)
      by (by destruct (decide (userId seat = Some u))).
    destruct (dateAfter checkedAt (lockExpiresAt seat)).
    + right; left. by exists seat.
    + right; right. by exists seat.
  - left. destruct (inherited seatId); eexists; by repeat split.
Qed.

Lemma unlockSeat_cases seatId u l (seats : gmap string Seat) :
  (∃ r, unlockSeat seatId u l seats = (seats, r) ∧ unlockFailed r)
  ∨ (∃ seat, seats !! seatId = Some seat ∧ status seat = LOCKED
             ∧ unlockSeat seatId u l seats
               = (<[seatId := clearLock seat]> seats, UnlockSuccess (clearLock seat))).
Proof.
  unfold unlockSeat, get.
  destruct (seats !! seatId) as [seat |] eqn:Hs.
  - case_bool_decide as H1; [left; eexists; by repeat split |].
    destruct (_ || _); [left; eexists; by repeat split |].
    right. exists seat. split; [done |]. split; [| done].
    by destruct (decide (status seat = LOCKED)).
  - left. destruct (inherited seatId); eexists; by repeat split.
Qed.

(** C10. A [confirmBooking] that fails for any reason but expiry returns with
    the table exactly as its sweep left it, so the addressed seat is as the
    validation found it; the expired failure is the one that writes, and
    leaves the addressed seat available. An [unlockSeat] that fails returns
    with the table it was given. *)
Theorem failures_leave_seat_as_found seatId u l (seats seats' : gmap string Seat) :
  (∀ now checkedAt bookedAt_ r,
     confirmBooking seatId u l now checkedAt bookedAt_ seats = (seats', r) →
     confirmFailed r →
     (r ≠ ConfirmLockExpired →
        seats' = cleanupExpiredLocks now seats
        ∧ seats' !! seatId = cleanupExpiredLocks now seats !! seatId)
     ∧ (r = ConfirmLockExpired →
        ∃ seat, cleanupExpiredLocks now seats !! seatId = Some seat
                ∧ status seat = LOCKED
                ∧ seats' !! seatId = Some (clearLock seat)
                ∧ status (clearLock seat) = AVAILABLE))
  ∧ (∀ r,
       unlockSeat seatId u l seats = (seats', r) →
       unlockFailed r →
       seats' = seats ∧ seats' !! seatId = seats !! seatId).
Proof.
  split.
  - intros now checkedAt bookedAt_ r Hc Hf.
    destruct (confirmBooking_cases seatId u l now checkedAt bookedAt_ seats)
      as [(r0 & E & _ & Hne) | [(seat & Hs & Hl & E) | (seat & Hs & Hl & _ & E)]];
      rewrite E in Hc; injection Hc as <- <-.
    + split; [done | by intros ->].
    + split; [done |]. intros _. exists seat.
      by rewrite lookup_insert_eq.
    + destruct Hf.
  - intros r Hu Hf.
    destruct (unlockSeat_cases seatId u l seats)
      as [(r0 & E & _) | (seat & _ & _ & E)];
      rewrite E in Hu; injection Hu as <- <-; [done | destruct Hf].
Qed.

(** ** Other seats during lockSeat *)

Lemma lockSeat_table seatId u now lockedAt_ lid seats :
  (lockSeat seatId u now lockedAt_ lid seats).1 = cleanupExpiredLocks now seats
  ∨ ∃ seat, (lockSeat seatId u now lockedAt_ lid seats).1
            = <[seatId := seat]> (cleanupExpiredLocks now seats).
Proof.
  unfold lockSeat. destruct (get _ seatId) as [| | seat]; simpl; auto.
  case_bool_decide; simpl; eauto.
Qed.

Lemma lockSeat_other seatId u now lockedAt_ lid seats other :
  other ≠ seatId →
  (lockSeat seatId u now lockedAt_ lid seats).1 !! other
  = expire now <$> seats !! other.
Proof.
  intros Hne.
  destruct (lockSeat_table seatId u now lockedAt_ lid seats) as [-> | [seat ->]].
  - apply lookup_cleanup.
  - rewrite lookup_insert_ne by done. apply lookup_cleanup.
Qed.

(** C4, as stated, fails: with A1 locked by alice at time 0 (expiry 60000), a
    [lockSeat] of A2 by bob at time 60001 returns A1 to available. *)
Lemma lockSeat_changes_other_seat :
  oneLock !! "A1"%string = Some (lockFields "alice" "lock-1" 0 (freshSeat "A" 1))
  ∧ (lockSeat "A2" "bob" 60001 60001 "lock-2" oneLock).1 !! "A1"%string
    = Some (freshSeat "A" 1)
  ∧ ¬ (∀ seatId u now lockedAt_ lid (seats : gmap string Seat) other,
         other ≠ seatId →
         (lockSeat seatId u now lockedAt_ lid seats).1 !! other = seats !! other).
Proof.
  assert ((lockSeat "A2" "bob" 60001 60001 "lock-2" oneLock).1 !! "A1"%string
          = Some (freshSeat "A" 1)) as E by (by vm_compute).
  split; [by vm_compute | split; [done |]].
  intros H.
  specialize (H "A2" "bob" 60001 60001 "lock-2" oneLock "A1"
                ltac:(discriminate))%string.
  rewrite E in H. by vm_compute in H.
Qed.

(** C4, amended. A [lockSeat] call changes a seat other than the one it
    addresses only through its sweep: the other seat is afterwards what the
    sweep makes of it, so it is identical before and after the call unless it
    was locked with an expiry earlier than the call's clock read, in which
    case it is available with holder and lock fields cleared. This holds
    whether the call succeeds or fails. *)
Theorem lockSeat_frame seatId u now lockedAt_ lid (seats : gmap string Seat) other :
  other ≠ seatId →
  (lockSeat seatId u now lockedAt_ lid seats).1 !! other
  = expire now <$> seats !! other
  ∧ (∀ seat, seats !! other = Some seat → lockExpired now seat = false →
       (lockSeat seatId u now lockedAt_ lid seats).1 !! other = Some seat)
  ∧ (∀ seat, seats !! other = Some seat → lockExpired now seat = true →
       (lockSeat seatId u now lockedAt_ lid seats).1 !! other
       = Some (clearLock seat))
  ∧ (seats !! other = None →
       (lockSeat seatId u now lockedAt_ lid seats).1 !! other = None)
  ∧ (∀ seat, lockExpired now seat = true ↔
       status seat = LOCKED ∧ ∃ expiresAt,
         lockExpiresAt seat = Some expiresAt ∧ expiresAt < now).
Proof.
  intros Hne. rewrite (lockSeat_other _ _ _ _ _ _ _ Hne).
  split; [done |]. repeat split.
  - intros seat -> E. simpl. unfold expire. by rewrite E.
  - intros seat -> E. simpl. unfold expire. by rewrite E.
  - by intros ->.
  - unfold lockExpired in H. by destruct (status seat).
  - unfold lockExpired in H. destruct (status seat), (lockExpiresAt seat) as [e|];
      try done. exists e. split; [done | by apply Z.ltb_lt].
  - intros (Hl & e & He & Hlt). unfold lockExpired. rewrite Hl, He.
    by apply Z.ltb_lt.
Qed.

Lemma lockSeat_frame_witness :
  (lockSeat "A2" "bob" 5 5 "lock-2" oneLock).1 !! "A1"%string
  = expire 5 <$> oneLock !! "A1"%string.
Proof.
  refine (proj1 (lockSeat_frame "A2" "bob" 5 5 "lock-2" oneLock "A1" _))%string.
  discriminate.
Defined.

(** ** Stale locks *)

Lemma lockedSince_expired issuedAt now seat :
  lockedSince issuedAt seat → issuedAt + LOCK_DURATION < now →
  expire now seat = clearLock seat.
Proof.
  intros (Hl & _ & He) Hlt. unfold expire, lockExpired. rewrite Hl, He.
  by rewrite (proj2 (Z.ltb_lt _ _) Hlt).
Qed.

Lemma lockedSince_not_expired issuedAt now seat :
  lockedSince issuedAt seat → now ≤ issuedAt + LOCK_DURATION →
  expire now seat = seat.
Proof.
  intros (Hl & _ & He) Hle. unfold expire, lockExpired. rewrite Hl, He.
  by rewrite (proj2 (Z.ltb_ge _ _) Hle).
Qed.

Lemma cleanup_stale now (seats : gmap string Seat) seatId seat issuedAt :
  seats !! seatId = Some seat → lockedSince issuedAt seat →
  issuedAt + LOCK_DURATION < now →
  cleanupExpiredLocks now seats !! seatId = Some (clearLock seat).
Proof.
  intros Hs Hl Hlt. rewrite lookup_cleanup, Hs. simpl.
  by rewrite (lockedSince_expired _ _ _ Hl Hlt).
Qed.

Lemma cleanup_insert now (seats : gmap string Seat) seatId seat :
  cleanupExpiredLocks now (<[seatId := seat]> seats)
  = <[seatId := expire now seat]> (cleanupExpiredLocks now seats).
Proof. unfold cleanupExpiredLocks. apply fmap_insert. Qed.

Lemma cleanup_insert_swept now (seats : gmap string Seat) seatId seat :
  seats !! seatId = Some seat →
  cleanupExpiredLocks now (<[seatId := expire now seat]> seats)
  = cleanupExpiredLocks now seats.
Proof.
  intros Hs. rewrite cleanup_insert, expire_idemp.
  apply insert_id. by rewrite lookup_cleanup, Hs.
Qed.

Lemma cleanup_available now (seats : gmap string Seat) seatId seat :
  seats !! seatId = Some seat → status seat = AVAILABLE →
  cleanupExpiredLocks now seats !! seatId = Some seat.
Proof.
  intros Hs Ha. rewrite lookup_cleanup, Hs. simpl.
  rewrite expire_not_locked; [done | by rewrite Ha].
Qed.

(** C5, as stated, fails for [unlockSeat]: with A1 locked by alice at time 0
    and never swept since, bob's [unlockSeat] is refused on the credentials
    and alice's succeeds, whatever the time; on the table swept at time
    60001 the seat is available and bob's call fails as not locked. *)
Lemma unlockSeat_does_not_sweep :
  (unlockSeat "A1" "bob" "lock-1" oneLock).2 = UnlockInvalidUserOrLockId
  ∧ (unlockSeat "A1" "alice" "lock-1" oneLock).2 = UnlockSuccess (freshSeat "A" 1)
  ∧ (unlockSeat "A1" "bob" "lock-1" (cleanupExpiredLocks 60001 oneLock)).2
    = UnlockNotLocked (Some AVAILABLE)
  ∧ ¬ (∀ seatId u l now (seats : gmap string Seat),
         (unlockSeat seatId u l seats).2
         = (unlockSeat seatId u l (cleanupExpiredLocks now seats)).2).
Proof.
  assert ((unlockSeat "A1" "bob" "lock-1" oneLock).2 = UnlockInvalidUserOrLockId)
    as E1 by (by vm_compute).
  assert ((unlockSeat "A1" "bob" "lock-1" (cleanupExpiredLocks 60001 oneLock)).2
          = UnlockNotLocked (Some AVAILABLE)) as E2 by (by vm_compute).
  split; [done | split; [by vm_compute | split; [done |]]].
  intros H. specialize (H "A1" "bob" "lock-1" 60001 oneLock)%string.
  rewrite E1, E2 in H. discriminate H.
Qed.

(** C5, amended. [lockSeat] and [confirmBooking] sweep before they validate:
    their outcome is the one on the swept table, so a seat whose lock has
    expired is available when they decide ([lockSeat] succeeds on it,
    [confirmBooking] finds it not locked). [unlockSeat] does not sweep: it
    validates the stored seat, and the holder of an expired lock that was not
    swept still releases it. *)
Theorem write_operations_and_sweep seatId u l now (seats : gmap string Seat) :
  (∀ lockedAt_ lid,
     lockSeat seatId u now lockedAt_ lid seats
     = lockSeat seatId u now lockedAt_ lid (cleanupExpiredLocks now seats))
  ∧ (∀ checkedAt bookedAt_,
     confirmBooking seatId u l now checkedAt bookedAt_ seats
     = confirmBooking seatId u l now checkedAt bookedAt_
         (cleanupExpiredLocks now seats))
  ∧ (∀ seat issuedAt,
     seats !! seatId = Some seat → lockedSince issuedAt seat →
     issuedAt + LOCK_DURATION < now →
     (∀ lockedAt_ lid, ∃ seat',
        lockSeat seatId u now lockedAt_ lid seats
        = (<[seatId := seat']> (cleanupExpiredLocks now seats),
           LockSuccess lid (lockedAt_ + LOCK_DURATION) seat'))
     ∧ (∀ checkedAt bookedAt_,
        confirmBooking seatId u l now checkedAt bookedAt_ seats
        = (cleanupExpiredLocks now seats, ConfirmNotLocked (Some AVAILABLE)))
     ∧ (userId seat = Some u → lockId seat = Some l →
        unlockSeat seatId u l seats
        = (<[seatId := clearLock seat]> seats, UnlockSuccess (clearLock seat)))).
Proof.
  split; [| split].
  - intros. unfold lockSeat. by rewrite cleanup_idemp.
  - intros. unfold confirmBooking. by rewrite cleanup_idemp.
  - intros seat issuedAt Hs Hl Hlt.
    pose proof (cleanup_stale _ _ _ _ _ Hs Hl Hlt) as Hc.
    split; [| split].
    + intros. eexists. by apply lockSeat_available.
    + intros. unfold confirmBooking. rewrite (get_own _ _ _ Hc). by decide_guards.
    + intros Hu Hi. destruct Hl as (Hl & _). unfold unlockSeat.
      rewrite (get_own _ _ _ Hs). by decide_guards.
Qed.

(** ** Expiry as seen by the operations *)

Lemma oneLock_A1 :
  oneLock !! "A1"%string = Some (lockFields "alice" "lock-1" 0 (freshSeat "A" 1)).
Proof. by vm_compute. Qed.

Lemma lockFields_lockedSince u lid lockedAt_ seat :
  lockedSince lockedAt_ (lockFields u lid lockedAt_ seat).
Proof. by repeat split. Qed.

(** C6, as stated, fails in two ways. At the expiry instant itself the lock
    still stands: A1, locked at time 0 with expiry 60000, is reported locked
    by [getSeatById] at time 60000. And [unlockSeat] never looks at the
    clock: whatever the time, bob's [unlockSeat] on the unswept table is
    refused on the credentials, not as not locked. *)
Lemma expiry_boundary_and_unlock :
  observedStatus (getSeatById 60000 "A1" oneLock).2 = Some LOCKED
  ∧ (unlockSeat "A1" "bob" "lock-1" oneLock).2 = UnlockInvalidUserOrLockId
  ∧ ¬ (∀ now seatId (seats : gmap string Seat) seat issuedAt,
         seats !! seatId = Some seat → lockedSince issuedAt seat →
         issuedAt + LOCK_DURATION ≤ now →
         observedStatus (getSeatById now seatId seats).2 = Some AVAILABLE)
  ∧ ¬ (∀ seatId u l (seats : gmap string Seat) seat issuedAt,
         seats !! seatId = Some seat → lockedSince issuedAt seat →
         (unlockSeat seatId u l seats).2 = UnlockNotLocked (Some AVAILABLE)).
Proof.
  assert (observedStatus (getSeatById 60000 "A1" oneLock).2 = Some LOCKED)
    as E1 by (by vm_compute).
  assert ((unlockSeat "A1" "bob" "lock-1" oneLock).2 = UnlockInvalidUserOrLockId)
    as E2 by (by vm_compute).
  split; [done | split; [done | split]]; intros H.
  - specialize (H 60000 "A1"%string oneLock _ 0 oneLock_A1
                  (lockFields_lockedSince _ _ _ _) ltac:(by vm_compute)).
    rewrite E1 in H. discriminate H.
  - specialize (H "A1" "bob" "lock-1" oneLock _ 0 oneLock_A1
                  (lockFields_lockedSince _ _ _ _))%string.
    rewrite E2 in H. discriminate H.
Qed.

Lemma confirmBooking_checks_witness :
  ∃ seat',
    confirmBooking "A1" "alice" "lock-1" 10 20 30 oneLock
    = (<["A1"%string := seat']> (cleanupExpiredLocks 10 oneLock),
       ConfirmSuccess seat')
    ∧ status seat' = BOOKED ∧ bookedAt seat' = Some 30
    ∧ lockId seat' = None ∧ lockedAt seat' = None
    ∧ lockExpiresAt seat' = None ∧ userId seat' = Some "alice"%string.
Proof.
  refine (proj1 (proj2 (proj2 (proj2 (proj2
            (confirmBooking_checks "A1" "alice" "lock-1" 10 20 30 oneLock
               (lockFields "alice" "lock-1" 0 (freshSeat "A" 1)) _)))))
            eq_refl eq_refl eq_refl eq_refl).
  by vm_compute.
Defined.

Lemma unlockSeat_outcomes_witness :
  ∃ seat',
    unlockSeat "A1" "alice" "lock-1" oneLock
    = (<["A1"%string := seat']> oneLock, UnlockSuccess seat')
    ∧ status seat' = AVAILABLE ∧ userId seat' = None ∧ lockId seat' = None
    ∧ lockedAt seat' = None ∧ lockExpiresAt seat' = None.
Proof.
  exact (proj2 (proj2
           (unlockSeat_outcomes "A1" "alice" "lock-1" oneLock
              (lockFields "alice" "lock-1" 0 (freshSeat "A" 1)) oneLock_A1))
           eq_refl eq_refl eq_refl).
Defined.

Lemma statistics_swept now (seats : gmap string Seat) :
  getStatistics now (cleanupExpiredLocks now seats) = getStatistics now seats.
Proof. unfold getStatistics. by rewrite cleanup_idemp. Qed.

(** C6, amended. Let a seat be locked at [issuedAt], with expiry
    [issuedAt + LOCK_DURATION], and let [now] be strictly later than the
    expiry. Then [getSeatById] returns the seat as available, [getAllSeats]
    lists it as available, [getStatistics] counts as if the table held it as
    available, [lockSeat] by any user succeeds and [confirmBooking] finds it
    not locked; after any of the three reads a later [lockSeat] by any user
    succeeds. [unlockSeat] is not covered: it reads no clock. *)
Theorem expired_lock_is_available now seatId (seats : gmap string Seat) seat issuedAt :
  seats !! seatId = Some seat → lockedSince issuedAt seat →
  issuedAt + LOCK_DURATION < now →
  status (clearLock seat) = AVAILABLE
  ∧ getSeatById now seatId seats
    = (cleanupExpiredLocks now seats, Own (clearLock seat))
  ∧ clearLock seat ∈ (getAllSeats now seats).2
  ∧ (getAllSeats now seats).1 !! seatId = Some (clearLock seat)
  ∧ (getStatistics now seats).2
    = (getStatistics now (<[seatId := clearLock seat]> seats)).2
  ∧ (getStatistics now seats).1 !! seatId = Some (clearLock seat)
  ∧ (∀ u lockedAt_ lid, ∃ seat',
       lockSeat seatId u now lockedAt_ lid seats
       = (<[seatId := seat']> (cleanupExpiredLocks now seats),
          LockSuccess lid (lockedAt_ + LOCK_DURATION) seat')
       ∧ userId seat' = Some u)
  ∧ (∀ u l checkedAt bookedAt_,
       confirmBooking seatId u l now checkedAt bookedAt_ seats
       = (cleanupExpiredLocks now seats, ConfirmNotLocked (Some AVAILABLE)))
  ∧ (∀ u later lockedAt_ lid, ∃ seat' seats',
       lockSeat seatId u later lockedAt_ lid (cleanupExpiredLocks now seats)
       = (seats', LockSuccess lid (lockedAt_ + LOCK_DURATION) seat')
       ∧ userId seat' = Some u ∧ seats' !! seatId = Some seat').
Proof.
  intros Hs Hl Hlt.
  pose proof (cleanup_stale _ _ _ _ _ Hs Hl Hlt) as Hc.
  split; [done |]. split; [| split; [| split; [| split; [| split; [| split; [| split]]]]]].
  - unfold getSeatById. by rewrite (get_own _ _ _ Hc).
  - unfold getAllSeats. simpl. apply list_elem_of_fmap.
    exists (seatId, clearLock seat). split; [done |].
    by apply elem_of_map_to_list.
  - done.
  - unfold getStatistics. simpl. f_equal. f_equal. f_equal.
    rewrite <- (lockedSince_expired _ _ _ Hl Hlt).
    by rewrite cleanup_insert_swept.
  - done.
  - intros. eexists. split; [by apply lockSeat_available | done].
  - intros. unfold confirmBooking. rewrite (get_own _ _ _ Hc). by decide_guards.
  - intros. do 2 eexists. split; [| split; [| apply lookup_insert_eq]].
    + apply (lockSeat_available _ _ _ _ _ _ (clearLock seat)); [| done].
      by apply cleanup_available.
    + done.
Qed.

Lemma expired_lock_is_available_witness :
  getSeatById 60001 "A1" oneLock
  = (cleanupExpiredLocks 60001 oneLock,
     Own (clearLock (lockFields "alice" "lock-1" 0 (freshSeat "A" 1)))).
Proof.
  refine (proj1 (proj2 (expired_lock_is_available 60001 "A1" oneLock
                   (lockFields "alice" "lock-1" 0 (freshSeat "A" 1)) 0 _ _ _))).
  - exact oneLock_A1.
  - apply lockFields_lockedSince.
  - vm_compute. reflexivity.
Defined.

(** ** Initialization and reset *)

Lemma freshSeat_pristine r i : pristine (freshSeat r i).
Proof. by repeat split. Qed.

Lemma initializeSeats_pristine :
  map_Forall (fun _ seat => pristine seat) initializeSeats.
Proof.
  unfold initializeSeats, rows, seatNumbers. cbn [foldl].
  repeat (apply map_Forall_insert_2; [apply freshSeat_pristine |]).
  apply map_Forall_empty.
Qed.

Lemma initializeSeats_size : size initializeSeats = 40%nat.
Proof. by vm_compute. Qed.

(** C9. After [resetSeats], whatever the table was, every seat is available
    and has no holder, lock identifier, lock times or booking time; the
    table again holds the 40 seats of the layout. *)
Theorem resetSeats_total (seats : gmap string Seat) :
  (∀ seatId seat,
     resetSeats seats !! seatId = Some seat →
     status seat = AVAILABLE ∧ userId seat = None ∧ lockId seat = None
     ∧ lockedAt seat = None ∧ lockExpiresAt seat = None ∧ bookedAt seat = None)
  ∧ resetSeats seats = initializeSeats
  ∧ size (resetSeats seats) = 40%nat.
Proof.
  split; [| split; [done | apply initializeSeats_size]].
  intros seatId seat Hs. by apply (initializeSeats_pristine seatId seat).
Qed.

(** ** The invariants of the data model *)

Lemma pristine_invariant seat : pristine seat → seatInvariant seat.
Proof.
  intros (Hs & Hu & Hl & Ha & He & _). unfold seatInvariant.
  rewrite Hs. by repeat split.
Qed.

Lemma clearLock_invariant seat : seatInvariant (clearLock seat).
Proof. unfold seatInvariant. simpl. by repeat split. Qed.

Lemma lockFields_invariant u lid lockedAt_ seat :
  seatInvariant (lockFields u lid lockedAt_ seat).
Proof.
  unfold seatInvariant. simpl.
  split; [split; [done | by intros (? & _)] |].
  split; [intros _; repeat split; eauto | done].
Qed.

Lemma bookFields_invariant bookedAt_ seat u :
  userId seat = Some u → seatInvariant (bookFields bookedAt_ seat).
Proof.
  intros Hu. unfold seatInvariant. simpl. rewrite Hu.
  split; [split; [done | by intros (? & _)] |].
  split; [done | intros _; repeat split; eauto].
Qed.

Lemma expire_invariant now seat :
  seatInvariant seat → seatInvariant (expire now seat).
Proof.
  intros H. unfold expire. destruct (lockExpired now seat);
    [apply clearLock_invariant | done].
Qed.

Create HintDb seat_inv discriminated.
#[local] Hint Resolve clearLock_invariant lockFields_invariant
  bookFields_invariant expire_invariant : seat_inv.

Lemma cleanup_invariant now seats :
  tableInvariant seats → tableInvariant (cleanupExpiredLocks now seats).
Proof.
  intros H k seat. rewrite lookup_cleanup.
  destruct (seats !! k) as [seat0 |] eqn:Hs; simpl; [| done].
  intros [= <-]. apply expire_invariant. by apply (H k).
Qed.

Lemma lockSeat_invariant seatId u now lockedAt_ lid seats :
  tableInvariant seats →
  tableInvariant (lockSeat seatId u now lockedAt_ lid seats).1.
Proof.
  intros H. apply (cleanup_invariant now) in H. unfold lockSeat.
  destruct (get _ seatId) as [| | seat]; simpl; try done.
  case_bool_decide; simpl; [done |].
  apply map_Forall_insert_2; eauto with seat_inv.
Qed.

Lemma confirmBooking_invariant seatId u l now checkedAt bookedAt_ seats :
  tableInvariant seats →
  tableInvariant (confirmBooking seatId u l now checkedAt bookedAt_ seats).1.
Proof.
  intros H. apply (cleanup_invariant now) in H.
  destruct (confirmBooking_cases seatId u l now checkedAt bookedAt_ seats)
    as [(r0 & E & _) | [(seat & _ & _ & E) | (seat & _ & _ & Hu & E)]];
    rewrite E; simpl; [done | |];
    apply map_Forall_insert_2; eauto with seat_inv.
Qed.

Lemma unlockSeat_invariant seatId u l seats :
  tableInvariant seats → tableInvariant (unlockSeat seatId u l seats).1.
Proof.
  intros H.
  destruct (unlockSeat_cases seatId u l seats)
    as [(r0 & E & _) | (seat & _ & _ & E)]; rewrite E; simpl; [done |].
  apply map_Forall_insert_2; eauto with seat_inv.
Qed.

Lemma initializeSeats_invariant : tableInvariant initializeSeats.
Proof.
  intros k seat Hs. apply pristine_invariant.
  by apply (initializeSeats_pristine k).
Qed.

Lemma perform_invariant op seats :
  tableInvariant seats → tableInvariant (perform op seats).
Proof.
  intros H. destruct op; simpl.
  - by apply cleanup_invariant.
  - by apply cleanup_invariant.
  - by apply lockSeat_invariant.
  - by apply confirmBooking_invariant.
  - by apply unlockSeat_invariant.
  - by apply cleanup_invariant.
  - by apply cleanup_invariant.
  - apply initializeSeats_invariant.
Qed.

Lemma run_invariant ops : tableInvariant (run ops).
Proof.
  unfold run. induction ops as [| op ops IH] using rev_ind; simpl.
  - apply initializeSeats_invariant.
  - rewrite foldl_app. simpl. by apply perform_invariant.
Qed.

(** C8. In every table reached from initialization by any sequence of
    [lockSeat], [confirmBooking], [unlockSeat], sweeps, reads and
    [resetSeats], with any arguments and clock reads, every seat satisfies:
    it is available exactly when holder, lock identifier, [lockedAt] and
    [lockExpiresAt] are all [null]; if it is locked, all four are set and
    [lockExpiresAt = lockedAt + LOCK_DURATION]; if it is booked, holder and
    [bookedAt] are set and lock identifier and lock times are [null]. *)
Theorem reachable_seats_invariant ops seatId seat :
  run ops !! seatId = Some seat →
  (status seat = AVAILABLE ↔
     userId seat = None ∧ lockId seat = None ∧
     lockedAt seat = None ∧ lockExpiresAt seat = None)
  ∧ (status seat = LOCKED →
     is_Some (userId seat) ∧ is_Some (lockId seat) ∧
     ∃ issuedAt, lockedAt seat = Some issuedAt ∧
                 lockExpiresAt seat = Some (issuedAt + LOCK_DURATION))
  ∧ (status seat = BOOKED →
     is_Some (userId seat) ∧ is_Some (bookedAt seat) ∧
     lockId seat = None ∧ lockedAt seat = None ∧ lockExpiresAt seat = None).
Proof. intros Hs. by apply (run_invariant ops seatId seat). Qed.

Lemma reachable_seats_invariant_witness :
  status (lockFields "alice" "lock-1" 0 (freshSeat "A" 1)) = AVAILABLE ↔
    userId (lockFields "alice" "lock-1" 0 (freshSeat "A" 1)) = None
    ∧ lockId (lockFields "alice" "lock-1" 0 (freshSeat "A" 1)) = None
    ∧ lockedAt (lockFields "alice" "lock-1" 0 (freshSeat "A" 1)) = None
    ∧ lockExpiresAt (lockFields "alice" "lock-1" 0 (freshSeat "A" 1)) = None.
Proof.
  exact (proj1 (reachable_seats_invariant
                  [OpLockSeat "A1" "alice" 0 0 "lock-1"]%string "A1"%string
                  (lockFields "alice" "lock-1" 0 (freshSeat "A" 1)) oneLock_A1)).
Defined.

(** ** Mutual exclusion on the mutex *)

Lemma start_mutualExclusion table reqs : mutualExclusion (start table reqs).
Proof.
  split.
  - intros seatId. simpl. split; [set_solver |].
    intros (i & req & H & _). rewrite list_lookup_fmap in H.
    by destruct (reqs !! i).
  - intros i j reqi reqj H. simpl in H. rewrite list_lookup_fmap in H.
    by destruct (reqs !! i).
Qed.

Lemma step_mutualExclusion st job :
  mutualExclusion st → mutualExclusion (step st job).
Proof.
  intros [Hset Huniq]. destruct job as [i | i rd | now]; simpl; [| | done].
  - destruct (calls st !! i) as [[req | req | req resp] |] eqn:Hi; try done.
    unfold checkMutex. case_decide as Hfree; [done |].
    assert (i < length (calls st))%nat as Hlen by (by eapply lookup_lt_Some).
    split; simpl.
    + intros seatId. rewrite elem_of_union, elem_of_singleton, Hset. split.
      * intros [-> | (j & r & Hj & Ht)].
        -- exists i, req. by rewrite list_lookup_insert_eq.
        -- exists j, r. rewrite list_lookup_insert_ne; [done | congruence].
      * intros (j & r & Hj & Ht).
        apply list_lookup_insert_Some in Hj as [(-> & [= <-] & _) | (Hne & Hj)];
          [by left | right; eauto].
    + intros j1 j2 r1 r2 H1 H2 Ht.
      apply list_lookup_insert_Some in H1 as [(-> & [= <-] & _) | (Hne1 & H1)];
        apply list_lookup_insert_Some in H2 as [(-> & [= <-] & _) | (Hne2 & H2)].
      * done.
      * exfalso. apply Hfree, Hset. eauto.
      * exfalso. apply Hfree, Hset. eauto.
      * eauto.
  - destruct (calls st !! i) as [[req | req | req resp] |] eqn:Hi; try done.
    destruct (tryBlock req rd (seats st)) as [table resp].
    unfold releaseMutex. split; simpl.
    + intros seatId. rewrite elem_of_difference, elem_of_singleton, Hset. split.
      * intros [(j & r & Hj & Ht) Hne]. exists j, r.
        rewrite list_lookup_insert_ne; [done |]. intros <-. congruence.
      * intros (j & r & Hj & Ht).
        apply list_lookup_insert_Some in Hj as [(_ & [=] & _) | (Hne & Hj)].
        split; [eauto |]. intros ->. apply Hne.
        by apply (Huniq i j req r).
    + intros j1 j2 r1 r2 H1 H2 Ht.
      apply list_lookup_insert_Some in H1 as [(_ & [=] & _) | (Hne1 & H1)].
      apply list_lookup_insert_Some in H2 as [(_ & [=] & _) | (Hne2 & H2)].
      eauto.
Qed.

Lemma runJobs_mutualExclusion jobs st :
  mutualExclusion st → mutualExclusion (runJobs st jobs).
Proof.
  revert st. induction jobs as [| job jobs IH]; intros st H; simpl; [done |].
  by apply IH, step_mutualExclusion.
Qed.

Lemma runJobs_app st jobs1 jobs2 :
  runJobs st (jobs1 ++ jobs2) = runJobs (runJobs st jobs1) jobs2.
Proof. unfold runJobs. apply foldl_app. Qed.

(** ** Simultaneous lockSeat calls on one seat *)

Lemma request_insert (cs : list Call) i c c' :
  cs !! i = Some c → request c' = request c →
  request <$> <[i := c']> cs = request <$> cs.
Proof.
  intros Hi Hr. rewrite list_fmap_insert, Hr.
  apply list_insert_id. by rewrite list_lookup_fmap, Hi.
Qed.

Lemma cleanup_locked_within now from (table : gmap string Seat) seatId
    u lid issuedAt seat :
  table !! seatId = Some (lockFields u lid issuedAt seat) →
  from ≤ issuedAt → now ≤ from + LOCK_DURATION →
  cleanupExpiredLocks now table !! seatId
  = Some (lockFields u lid issuedAt seat).
Proof.
  intros Hs H1 H2. rewrite lookup_cleanup, Hs. simpl.
  rewrite (lockedSince_not_expired issuedAt); [done | | lia].
  apply lockFields_lockedSince.
Qed.

Lemma request_start seatId (users : list string) (table : gmap string Seat) :
  request <$> calls (start table (LockSeat seatId <$> users))
  = LockSeat seatId <$> users.
Proof.
  simpl. induction users as [| u users IH]; [done |].
  rewrite !fmap_cons. simpl. by f_equal.
Qed.

Section Contest.

Variables (seatId : string) (users : list string) (from : Z) (jobs : list Job).

Lemma contended_request st i c :
  contended seatId users from jobs st → calls st !! i = Some c →
  ∃ u, users !! i = Some u ∧ request c = LockSeat seatId u.
Proof.
  intros [Hreq _] Hi.
  assert ((request <$> calls st) !! i = Some (request c)) as H
    by (by rewrite list_lookup_fmap, Hi).
  rewrite Hreq, list_lookup_fmap in H.
  destruct (users !! i) as [u |]; [| done]. exists u. by injection H as <-.
Qed.

Lemma start_contended (table : gmap string Seat) seat :
  table !! seatId = Some seat → status seat = AVAILABLE →
  contended seatId users from jobs (start table (LockSeat seatId <$> users)).
Proof.
  intros Hs Ha. split; [apply request_start | simpl].
  left. exists seat. repeat split; [done | done |].
  intros j c Hj. rewrite list_lookup_fmap in Hj.
  destruct (_ !! j); [by injection Hj as <- | done].
Qed.

Lemma step_contended st job :
  job ∈ jobs → jobWithin from job →
  contended seatId users from jobs st →
  contended seatId users from jobs (step st job).
Proof.
  intros Hin Hw Hc. pose proof Hc as [Hreq Hphase].
  destruct job as [i | i rd | now]; simpl.
  - (* checkMutex *)
    destruct (calls st !! i) as [[req | req | req resp] |] eqn:Hi; try done.
    destruct (checkMutex _ _); [| done].
    split; simpl; [by rewrite (request_insert _ _ _ _ Hi) |].
    destruct Hphase as [(seat & Hs & Ha & Hnone)
                       | (i0 & u & rd0 & seat & Hrd & Hs & Hf & Hi0 & Hrest)].
    + left. exists seat. repeat split; [done | done |].
      intros j c Hj.
      apply list_lookup_insert_Some in Hj as [(_ & <- & _) | (_ & Hj)]; eauto.
    + right. exists i0, u, rd0, seat. repeat split; try done.
      * rewrite list_lookup_insert_ne; [done | congruence].
      * intros j c Hne Hj.
        apply list_lookup_insert_Some in Hj as [(_ & <- & _) | (_ & Hj)];
          [done | eauto].
  - (* the continuation of call i *)
    destruct (calls st !! i) as [[req | req | req resp] |] eqn:Hi; try done.
    destruct (contended_request _ _ _ Hc Hi) as (u & Hu & Hr).
    simpl in Hr. subst req. simpl.
    destruct Hw as (Hw1 & Hw2 & _).
    destruct Hphase as [(seat & Hs & Ha & Hnone)
                       | (i0 & u0 & rd0 & seat & Hrd & Hs & Hf & Hi0 & Hrest)].
    + rewrite (lockSeat_available _ _ _ _ _ _ seat);
        [| by apply cleanup_available | done].
      split; simpl; [by rewrite (request_insert _ _ _ _ Hi) |].
      right. exists i, u, rd, seat.
      assert (i < length (calls st))%nat by (by eapply lookup_lt_Some).
      repeat split; try done.
      * apply lookup_insert_eq.
      * lia.
      * by apply list_lookup_insert_eq.
      * intros j c Hne Hj Hset. rewrite list_lookup_insert_ne in Hj by done.
        apply Hnone in Hj. congruence.
    + rewrite (lockSeat_unavailable _ _ _ _ _ _
                 (lockFields u0 (uuid rd0) (second rd0) seat));
        [| apply (cleanup_locked_within _ from); [done | done | lia] | done].
      split; simpl; [by rewrite (request_insert _ _ _ _ Hi) |].
      right. exists i0, u0, rd0, seat. repeat split; try done.
      * apply (cleanup_locked_within _ from); [done | done | lia].
      * rewrite list_lookup_insert_ne; [done | congruence].
      * intros j c Hne Hj.
        apply list_lookup_insert_Some in Hj as [(_ & <- & _) | (_ & Hj)];
          [done | eauto].
  - (* a sweep *)
    split; simpl; [done |]. simpl in Hw.
    destruct Hphase as [(seat & Hs & Ha & Hnone)
                       | (i0 & u0 & rd0 & seat & Hrd & Hs & Hf & Hi0 & Hrest)].
    + left. exists seat. repeat split; [by apply cleanup_available | done | done].
    + right. exists i0, u0, rd0, seat. repeat split; try done.
      apply (cleanup_locked_within _ from); [done | done | lia].
Qed.

Lemma runJobs_contended rest st :
  rest ⊆ jobs → Forall (jobWithin from) rest →
  contended seatId users from jobs st →
  contended seatId users from jobs (runJobs st rest).
Proof.
  revert st.
  induction rest as [| job rest IH]; intros st Hsub Hw Hc; simpl; [done |].
  apply Forall_cons in Hw as [Hj Hw]. apply IH; [set_solver | done |].
  apply step_contended; [set_solver | done | done].
Qed.

(** At any point of the run at most one call has returned with success. *)
Lemma contended_one_success st i j ci cj :
  contended seatId users from jobs st →
  calls st !! i = Some ci → succeeded ci = true →
  calls st !! j = Some cj → succeeded cj = true →
  i = j.
Proof.
  intros [_ Hphase] Hi Hsi Hj Hsj.
  destruct Hphase as [(seat & _ & _ & Hnone)
                     | (i0 & u & rd & seat & _ & _ & _ & _ & Hrest)].
  - apply Hnone in Hi. by destruct ci.
  - assert (∀ k c, calls st !! k = Some c → succeeded c = true → k = i0)
      as Hwin.
    { intros k c Hk Hs. destruct (decide (k = i0)) as [| Hne]; [done |].
      assert (settled c = true) as Hset by (by destruct c).
      rewrite (Hrest k c Hne Hk Hset) in Hs. done. }
    by rewrite (Hwin i ci), (Hwin j cj).
Qed.

End Contest.

(** ** Every call returns *)

Lemma oneAfterAnother_settles rd n : ∀ k st,
  seatMutex st = ∅ →
  (∀ j, (k ≤ j < k + n)%nat → ∃ req, calls st !! j = Some (Polling req)) →
  seatMutex (runJobs st (oneAfterAnother rd k n)) = ∅
  ∧ (∀ j, (k ≤ j < k + n)%nat →
       ∃ c, calls (runJobs st (oneAfterAnother rd k n)) !! j = Some c
            ∧ settled c = true)
  ∧ (∀ j, (j < k)%nat →
       calls (runJobs st (oneAfterAnother rd k n)) !! j = calls st !! j).
Proof.
  induction n as [| n IH]; intros k st Hfree Hpoll.
  - repeat split; [done | lia].
  - unfold oneAfterAnother. simpl seq. simpl flat_map.
    fold (oneAfterAnother rd (S k) n).
    destruct (Hpoll k ltac:(lia)) as (req & Hk).
    assert (k < length (calls st))%nat as Hlen by (by eapply lookup_lt_Some).
    simpl. rewrite Hk. unfold checkMutex. rewrite Hfree.
    rewrite decide_False by set_solver. simpl.
    rewrite list_lookup_insert_eq by done.
    destruct (tryBlock req rd (seats st)) as [table resp] eqn:Htry.
    rewrite list_insert_insert_eq.
    match goal with |- context [runJobs ?s _] => set (st1 := s) end.
    fold (runJobs st1 (oneAfterAnother rd (S k) n)).
    destruct (IH (S k) st1) as (H1 & H2 & H3).
    + unfold st1, releaseMutex. simpl.
      rewrite (right_id_L ∅ (∪)). apply difference_diag_L.
    + intros j Hj. unfold st1. simpl.
      rewrite list_lookup_insert_ne by lia. apply Hpoll. lia.
    + split; [done |]. split.
      * intros j Hj. destruct (decide (j = k)) as [-> | Hne].
        -- rewrite H3 by lia. unfold st1. simpl.
           rewrite list_lookup_insert_eq by done. by eexists.
        -- apply H2. lia.
      * intros j Hj. rewrite H3 by lia. unfold st1. simpl.
        by rewrite list_lookup_insert_ne by lia.
Qed.

Lemma runJobs_length jobs : ∀ st,
  length (calls (runJobs st jobs)) = length (calls st).
Proof.
  induction jobs as [| job jobs IH]; intros st; simpl; [done |].
  rewrite IH. destruct job as [i | i rd | now]; simpl; try done.
  - destruct (calls st !! i) as [[req | req | req resp] |]; try done.
    destruct (checkMutex _ _); [| done]. simpl. apply length_insert.
  - destruct (calls st !! i) as [[req | req | req resp] |]; try done.
    destruct (tryBlock _ _ _). simpl. apply length_insert.
Qed.

(** The calls do return: whatever the requests and the table, the schedule
    that lets each call poll and continue in turn settles all of them. *)
Lemma every_call_returns rd table reqs :
  allSettled (runJobs (start table reqs) (oneAfterAnother rd 0 (length reqs))).
Proof.
  destruct (oneAfterAnother_settles rd (length reqs) 0 (start table reqs))
    as (_ & H & _); [done | |].
  - intros j Hj. simpl. rewrite list_lookup_fmap.
    destruct (lookup_lt_is_Some_2 reqs j) as [req Hr]; [lia |].
    rewrite Hr. by eexists.
  - intros j c Hj.
    assert (j < length reqs)%nat as Hlt.
    { apply lookup_lt_Some in Hj. rewrite runJobs_length in Hj. simpl in Hj.
      by rewrite length_fmap in Hj. }
    destruct (H j ltac:(lia)) as (c' & Hc' & Hs). congruence.
Qed.

(** One turn of call [k], its poll and then its continuation: the other
    calls stand where they stood, call [k] is not left holding the mutex,
    and when no mutex is set and no call holds one, call [k] has returned
    and no mutex is set. *)
Lemma turn_calls st k rd :
  let st' := step (step st (CheckMutex k)) (Continue k rd) in
  (∀ j, j ≠ k → calls st' !! j = calls st !! j)
  ∧ (∀ c, calls st' !! k = Some c → holding c = false)
  ∧ (seatMutex st = ∅ →
     (∀ j c, calls st !! j = Some c → holding c = false) →
     seatMutex st' = ∅ ∧ ∀ c, calls st' !! k = Some c → settled c = true).
Proof.
  cbn zeta. cbn [step].
  destruct (calls st !! k) as [[req | req | req resp] |] eqn:Hk.
  - assert (k < length (calls st))%nat as Hlen by (by eapply lookup_lt_Some).
    unfold checkMutex. case_decide as Hheld.
    + rewrite Hk. simpl. split; [done |]. split.
      * (intros c Hc; rewrite Hk in Hc; by injection Hc as <-).
      * intros Hfree _. rewrite Hfree in Hheld.
        by apply not_elem_of_empty in Hheld.
    + cbn [calls seats seatMutex]. rewrite list_lookup_insert_eq by done.
      destruct (tryBlock req rd (seats st)) as [table resp].
      cbn [calls seats seatMutex]. rewrite list_insert_insert_eq.
      split; [| split].
      * intros j Hne. by rewrite list_lookup_insert_ne.
      * intros c Hc. rewrite list_lookup_insert_eq in Hc by done.
        by injection Hc as <-.
      * intros Hfree _. split.
        -- unfold releaseMutex. rewrite Hfree.
           rewrite (right_id_L ∅ (∪)). apply difference_diag_L.
        -- intros c Hc. rewrite list_lookup_insert_eq in Hc by done.
           by injection Hc as <-.
  - assert (k < length (calls st))%nat as Hlen by (by eapply lookup_lt_Some).
    rewrite Hk. simpl. destruct (tryBlock req rd (seats st)) as [table resp].
    cbn [calls seats seatMutex]. split; [| split].
    + intros j Hne. by rewrite list_lookup_insert_ne.
    + intros c Hc. rewrite list_lookup_insert_eq in Hc by done.
      by injection Hc as <-.
    + intros _ Hnone. by pose proof (Hnone _ _ Hk).
  - rewrite Hk. simpl. split; [done |]. split.
    + (intros c Hc; rewrite Hk in Hc; by injection Hc as <-).
    + intros Hfree _. split; [done |]. (intros c Hc; rewrite Hk in Hc; by injection Hc as <-).
  - rewrite Hk. simpl. split; [done |]. split.
    + intros c Hc. by rewrite Hk in Hc.
    + intros Hfree _. split; [done |]. intros c Hc. by rewrite Hk in Hc.
Qed.

Lemma oneAfterAnother_cons rd k n st :
  runJobs st (oneAfterAnother rd k (S n))
  = runJobs (step (step st (CheckMutex k)) (Continue k rd))
            (oneAfterAnother rd (S k) n).
Proof. reflexivity. Qed.

(** After one round no call is left holding a mutex. *)
Lemma oneAfterAnother_no_holder rd n : ∀ k st,
  (∀ j c, (j < k)%nat → calls st !! j = Some c → holding c = false) →
  ∀ j c, (j < k + n)%nat →
    calls (runJobs st (oneAfterAnother rd k n)) !! j = Some c →
    holding c = false.
Proof.
  induction n as [| n IH]; intros k st Hbefore j c Hj Hc.
  - apply (Hbefore j c); [lia | done].
  - rewrite oneAfterAnother_cons in Hc.
    destruct (turn_calls st k rd) as (Hother & Hk & _). cbn zeta in *.
    apply (IH (S k) (step (step st (CheckMutex k)) (Continue k rd)))
      with (j := j) (c := c); [| lia | done].
    intros j' c' Hj' Hc'. destruct (decide (j' = k)) as [-> | Hne].
    + by apply Hk.
    + rewrite Hother in Hc' by done. apply (Hbefore j' c'); [lia | done].
Qed.

(** A round that starts with no mutex set and no call holding one lets
    every call return. *)
Lemma oneAfterAnother_drains rd n : ∀ k st,
  seatMutex st = ∅ →
  (∀ j c, calls st !! j = Some c → holding c = false) →
  (∀ j c, (j < k)%nat → calls st !! j = Some c → settled c = true) →
  ∀ j c, (j < k + n)%nat →
    calls (runJobs st (oneAfterAnother rd k n)) !! j = Some c →
    settled c = true.
Proof.
  induction n as [| n IH]; intros k st Hfree Hnone Hbefore j c Hj Hc.
  - apply (Hbefore j c); [lia | done].
  - rewrite oneAfterAnother_cons in Hc.
    destruct (turn_calls st k rd) as (Hother & Hk & Hturn). cbn zeta in *.
    destruct (Hturn Hfree Hnone) as [Hfree' Hsettled].
    apply (IH (S k) (step (step st (CheckMutex k)) (Continue k rd)))
      with (j := j) (c := c); [done | | | lia | done].
    + intros j' c' Hc'. destruct (decide (j' = k)) as [-> | Hne].
      * by apply Hk.
      * rewrite Hother in Hc' by done. by apply (Hnone j' c').
    + intros j' c' Hj' Hc'. destruct (decide (j' = k)) as [-> | Hne].
      * by apply Hsettled.
      * rewrite Hother in Hc' by done. apply (Hbefore j' c'); [lia | done].
Qed.

(** From any state in which the mutex is set exactly for the seats held,
    two rounds let every call return. *)
Lemma twoRounds_settles rd st :
  mutualExclusion st →
  allSettled (runJobs st (twoRounds rd (length (calls st)))).
Proof.
  intros Hmutex. unfold twoRounds. rewrite runJobs_app.
  set (st1 := runJobs st (oneAfterAnother rd 0 (length (calls st)))).
  assert (length (calls st1) = length (calls st)) as Hlen
    by apply runJobs_length.
  assert (∀ j c, calls st1 !! j = Some c → holding c = false) as Hnone.
  { intros j c Hc.
    apply (oneAfterAnother_no_holder rd (length (calls st)) 0 st)
      with (j := j); [intros; lia | | done].
    apply lookup_lt_Some in Hc. lia. }
  assert (seatMutex st1 = ∅) as Hfree.
  { destruct (runJobs_mutualExclusion
                (oneAfterAnother rd 0 (length (calls st))) st Hmutex)
      as [Hset _].
    fold st1 in Hset. apply elem_of_equiv_empty_L. intros seatId Hin.
    apply Hset in Hin as (i & req & Hi & _). by pose proof (Hnone _ _ Hi). }
  intros j c Hc.
  apply (oneAfterAnother_drains rd (length (calls st)) 0 st1)
    with (j := j); [done | done | intros; lia | | done].
  apply lookup_lt_Some in Hc. rewrite runJobs_length in Hc. lia.
Qed.

Lemma twoRounds_within from rd n :
  readsWithin from rd → Forall (jobWithin from) (twoRounds rd n).
Proof.
  intros Hrd.
  assert (∀ k, Forall (jobWithin from) (oneAfterAnother rd k n)) as H.
  { unfold oneAfterAnother. induction n as [| n IH]; intros k; simpl; [done |].
    repeat (apply Forall_cons; split; [done |]). apply IH. }
  unfold twoRounds. apply Forall_app. split; apply H.
Qed.

(** For any users, the schedule [oneAfterAnother] with reads inside the
    window keeps every job inside the window and lets every call return. *)
Lemma contest_can_finish seatId users from rd (table : gmap string Seat) :
  readsWithin from rd →
  Forall (jobWithin from) (oneAfterAnother rd 0 (length users))
  ∧ allSettled (contest seatId users table (oneAfterAnother rd 0 (length users))).
Proof.
  intros Hrd. split.
  - unfold oneAfterAnother. generalize 0%nat.
    induction (length users) as [| n IH]; intros k; simpl; [done |].
    repeat (apply Forall_cons; split; [done |]). apply IH.
  - unfold contest.
    rewrite <- (length_fmap (LockSeat seatId) users).
    apply every_call_returns.
Qed.

(** ** Counting the calls that succeeded *)

Lemma filter_none {A} (P : A → Prop) `{∀ x, Decision (P x)} (l : list A) :
  (∀ j y, l !! j = Some y → ¬ P y) → filter P l = [].
Proof.
  induction l as [| x l IH]; intros Hnot; [done |].
  rewrite filter_cons_False by (by apply (Hnot 0%nat)).
  apply IH. intros j y Hj. by apply (Hnot (S j)).
Qed.

Lemma filter_at_most_one {A} (P : A → Prop) `{∀ x, Decision (P x)}
    (l : list A) :
  (∀ i j x y, l !! i = Some x → P x → l !! j = Some y → P y → i = j) →
  (length (filter P l) ≤ 1)%nat.
Proof.
  induction l as [| x l IH]; intros Hone; [cbn; lia |].
  destruct (decide (P x)) as [Hx | Hx].
  - rewrite filter_cons_True by done. rewrite filter_none; [done |].
    intros j y Hj Hy. by pose proof (Hone 0%nat (S j) x y eq_refl Hx Hj Hy).
  - rewrite filter_cons_False by done. apply IH.
    intros i j y z Hi Hy Hj Hz.
    pose proof (Hone (S i) (S j) y z Hi Hy Hj Hz). lia.
Qed.

Lemma filter_at_least_one {A} (P : A → Prop) `{∀ x, Decision (P x)}
    (l : list A) i x :
  l !! i = Some x → P x → (1 ≤ length (filter P l))%nat.
Proof.
  intros Hi Hx.
  assert (x ∈ filter P l) as Hin.
  { apply list_elem_of_filter. split; [done |].
    by apply list_elem_of_lookup_2 with i. }
  destruct (filter P l); [by apply not_elem_of_nil in Hin | cbn; lia].
Qed.

Lemma allSettled_forallb st :
  forallb settled (calls st) = true → allSettled st.
Proof.
  intros H j c Hj. rewrite forallb_forall in H. apply H.
  apply list_elem_of_In. by apply list_elem_of_lookup_2 with j.
Qed.

(** ** The claim on simultaneous calls, as stated and as amended *)

(** C1, as stated, fails in three ways. Two calls can both succeed: alice
    and bob ask for A5 in the same tick, alice's continuation locks it at
    time 0, and bob's second poll and continuation run at time 60001, when
    the sweep of his own call returns the seat to available. No call
    succeeds when the seat is not available: on A5 booked, both calls get
    the conflict failure. And seats are written without the mutex: a sweep
    at time 60001 returns A1, locked at time 0, to available while no mutex
    is set, and sets none. *)
Lemma simultaneous_lockSeat_unrestricted :
  forallb settled
    (calls (contest "A5" ["alice"; "bob"] initializeSeats lateCalls)) = true
  ∧ successes (contest "A5" ["alice"; "bob"] initializeSeats lateCalls)
    = 2%nat
  ∧ calls (contest "A5" ["bob"; "carol"] oneBooking
             (oneAfterAnother
                {| first := 2; second := 2; third := 2; uuid := "lock-2" |}
                0 2))
    = [Settled (LockSeat "A5" "bob") (Locking (LockConflict (Some BOOKED)));
       Settled (LockSeat "A5" "carol") (Locking (LockConflict (Some BOOKED)))]
  ∧ seatMutex (start oneLock []) = ∅
  ∧ seats (start oneLock []) !! "A1"%string
    = Some (lockFields "alice" "lock-1" 0 (freshSeat "A" 1))
  ∧ seats (step (start oneLock []) (Sweep 60001)) !! "A1"%string
    = Some (freshSeat "A" 1)
  ∧ seatMutex (step (start oneLock []) (Sweep 60001)) = ∅
  ∧ ¬ (∀ seatId users (table : gmap string Seat) jobs,
         NoDup users → users ≠ [] → is_Some (table !! seatId) →
         allSettled (contest seatId users table jobs) →
         successes (contest seatId users table jobs) = 1%nat)
  ∧ ¬ (∀ st job seatId,
         seats (step st job) !! seatId ≠ seats st !! seatId →
         seatId ∈ seatMutex st).
Proof.
  assert (forallb settled
            (calls (contest "A5" ["alice"; "bob"] initializeSeats lateCalls))
          = true) as E1 by (by vm_compute).
  assert (successes (contest "A5" ["alice"; "bob"] initializeSeats lateCalls)
          = 2%nat) as E2 by (by vm_compute).
  assert (seats (step (start oneLock []) (Sweep 60001)) !! "A1"%string
          = Some (freshSeat "A" 1)) as E3 by (by vm_compute).
  assert (seats (start oneLock []) !! "A1"%string
          = Some (lockFields "alice" "lock-1" 0 (freshSeat "A" 1))) as E4
    by apply oneLock_A1.
  split; [exact E1 |]. split; [exact E2 |]. split; [by vm_compute |].
  split; [reflexivity |]. split; [exact E4 |]. split; [exact E3 |].
  split; [reflexivity |]. split.
  - intros H.
    specialize (H "A5" ["alice"; "bob"] initializeSeats lateCalls)%string.
    rewrite E2 in H. clear E3 E4.
    assert (2%nat = 1%nat) as Habs; [| discriminate Habs].
    apply H.
    + apply NoDup_cons. split; [| apply NoDup_singleton].
      intros Hin. apply list_elem_of_singleton in Hin. discriminate Hin.
    + discriminate.
    + exists (freshSeat "A" 5). by vm_compute.
    + by apply allSettled_forallb.
  - intros H.
    specialize (H (start oneLock []) (Sweep 60001) "A1"%string).
    rewrite E3, E4 in H.
    assert ("A1"%string ∈ seatMutex (start oneLock [])) as Hin
      by (apply H; discriminate).
    cbn [seatMutex start] in Hin. by apply not_elem_of_empty in Hin.
Qed.

(** C1, amended. Take [lockSeat] calls on one seat, one per user of a
    non-empty list (the users need not be distinct), made while the seat
    exists and is available and no mutex is set, and any interleaving of
    their [checkMutex] polls and continuations with sweeps whose clock reads
    all lie within one window of [LOCK_DURATION]. Once every call has
    returned, exactly one has succeeded and each of the others has failed
    with the conflict failure carrying 'locked'; the identifier returned to
    the winner is the value [uuidv4()] gave in the continuation of that very
    call and the expiry is the clock read of that continuation plus
    [LOCK_DURATION]; no other call returned an identifier, and the seat
    carries that identifier with the winner as holder; the seat's mutex is
    released. At every point of the run at most one call has succeeded, and
    from every point of the run all calls do return when each call in turn
    polls and continues, twice over. The mutex is per seat identifier and
    guards the three methods [lockSeat], [confirmBooking] and [unlockSeat]:
    at every point of any run of such calls on any seats, the mutex is set
    for a seat exactly when one call holds it, never two. The sweep sets no
    mutex. *)
Theorem simultaneous_lockSeat seatId users from (table : gmap string Seat)
    seat jobs :
  table !! seatId = Some seat → status seat = AVAILABLE →
  users ≠ [] →
  Forall (jobWithin from) jobs →
  (allSettled (contest seatId users table jobs) →
     successes (contest seatId users table jobs) = 1%nat
     ∧ (∃ i u rd snapshot,
          users !! i = Some u
          ∧ Continue i rd ∈ jobs
          ∧ calls (contest seatId users table jobs) !! i
            = Some (Settled (LockSeat seatId u)
                      (Locking (LockSuccess (uuid rd)
                                  (second rd + LOCK_DURATION) snapshot)))
          ∧ seats (contest seatId users table jobs) !! seatId = Some snapshot
          ∧ status snapshot = LOCKED ∧ userId snapshot = Some u
          ∧ lockId snapshot = Some (uuid rd)
          ∧ lockedAt snapshot = Some (second rd)
          ∧ ∀ j v, j ≠ i → users !! j = Some v →
              calls (contest seatId users table jobs) !! j
              = Some (Settled (LockSeat seatId v)
                        (Locking (LockConflict (Some LOCKED)))))
     ∧ seatId ∉ seatMutex (contest seatId users table jobs))
  ∧ length (calls (contest seatId users table jobs)) = length users
  ∧ (successes (contest seatId users table jobs) ≤ 1)%nat
  ∧ (∀ rd,
       allSettled
         (contest seatId users table (jobs ++ twoRounds rd (length users)))
       ∧ (readsWithin from rd →
          Forall (jobWithin from) (jobs ++ twoRounds rd (length users))))
  ∧ (∀ before rest, jobs = before ++ rest →
       mutualExclusion (contest seatId users table before))
  ∧ (∀ (anyTable : gmap string Seat) requests schedule,
       mutualExclusion (runJobs (start anyTable requests) schedule))
  ∧ (∀ st now, seatMutex (step st (Sweep now)) = seatMutex st).
Proof.
  intros Hs Ha Hne Hw.
  assert (contended seatId users from jobs (contest seatId users table jobs))
    as Hc.
  { apply runJobs_contended; [done | done |]. by apply start_contended with seat. }
  pose proof Hc as [Hreq Hphase].
  assert (length (calls (contest seatId users table jobs)) = length users)
    as Hlen by (by rewrite <- (length_fmap request), Hreq, length_fmap).
  assert (mutualExclusion (contest seatId users table jobs)) as Hmutex
    by apply runJobs_mutualExclusion, start_mutualExclusion.
  assert (successes (contest seatId users table jobs) ≤ 1)%nat as Hmost.
  { apply filter_at_most_one. intros i j ci cj Hi Hsi Hj Hsj.
    by apply (contended_one_success seatId users from jobs
                (contest seatId users table jobs) i j ci cj). }
  split; [| split; [done | split; [done | split; [| split; [| split]]]]].
  - intros Hall.
    destruct Hphase as [(seat0 & _ & _ & Hnone)
                       | (i & u & rd & seat0 & Hrd & Hs0 & _ & Hi & Hrest)].
    { exfalso. destruct users as [| u users]; [done |].
      destruct (lookup_lt_is_Some_2
                  (calls (contest seatId (u :: users) table jobs)) 0)
        as [c Hc0]; [rewrite Hlen; simpl; lia |].
      pose proof (Hall _ _ Hc0). pose proof (Hnone _ _ Hc0). congruence. }
    split; [| split].
    + pose proof (filter_at_least_one (fun c => succeeded c = true)
                    _ i _ Hi eq_refl) as Hleast.
      unfold successes in *. lia.
    + exists i, u, rd, (lockFields u (uuid rd) (second rd) seat0).
      destruct (contended_request _ _ _ _ _ _ _ Hc Hi) as (u' & Hu & [= <-]).
      repeat split; try done.
      intros j v Hj Hv.
      destruct (lookup_lt_is_Some_2
                  (calls (contest seatId users table jobs)) j)
        as [c Hcj]; [rewrite Hlen; by eapply lookup_lt_Some |].
      destruct (contended_request _ _ _ _ _ _ _ Hc Hcj) as (v' & Hv' & Hr).
      rewrite Hcj, (Hrest j c Hj Hcj (Hall _ _ Hcj)), Hr. congruence.
    + intros Hin. destruct Hmutex as [Hset _].
      apply Hset in Hin as (j & req & Hj & _).
      by pose proof (Hall _ _ Hj).
  - intros rd. split.
    + unfold contest. rewrite runJobs_app.
      fold (contest seatId users table jobs). rewrite <- Hlen.
      by apply twoRounds_settles.
    + intros Hrd. apply Forall_app. split; [done |].
      by apply twoRounds_within.
  - intros before rest _. apply runJobs_mutualExclusion, start_mutualExclusion.
  - intros. apply runJobs_mutualExclusion, start_mutualExclusion.
  - reflexivity.
Qed.

Lemma threeCalls_within : Forall (jobWithin 1000) threeCalls.
Proof.
  unfold threeCalls, jobWithin, readsWithin, LOCK_DURATION. simpl.
  repeat (apply Forall_cons; split; [try done; repeat split; lia |]).
  apply Forall_nil_2.
Qed.

Lemma threeCalls_flags :
  settled <$> calls (contest "A5" threeUsers initializeSeats threeCalls)
  = [true; true; true].
Proof. by vm_compute. Qed.

Lemma threeCalls_settled :
  allSettled (contest "A5" threeUsers initializeSeats threeCalls).
Proof.
  intros j c Hj.
  assert ((settled <$> calls (contest "A5" threeUsers initializeSeats threeCalls))
            !! j = Some (settled c)) as Hs by (by rewrite list_lookup_fmap, Hj).
  clear Hj. rewrite threeCalls_flags in Hs.
  destruct j as [| [| [| j]]]; by inversion Hs.
Qed.

Lemma simultaneous_lockSeat_witness :
  length (calls (contest "A5" threeUsers initializeSeats threeCalls))
  = length threeUsers
  ∧ successes (contest "A5" threeUsers initializeSeats threeCalls) = 1%nat.
Proof.
  pose proof (simultaneous_lockSeat "A5" threeUsers 1000 initializeSeats
                (freshSeat "A" 5) threeCalls
                ltac:(by vm_compute) eq_refl ltac:(discriminate)
                threeCalls_within) as (H1 & H2 & _).
  exact (conj H2 (proj1 (H1 threeCalls_settled))).
Defined.

(** ** Worked scenarios *)

(** Seat A5: alice locks it, bob is refused, bob cannot confirm with alice's
    lock, alice confirms, carol is refused on the booked seat. *)
Example scenario_A5 :
  let t0 := initializeSeats in
  let '(t1, r1) := lockSeat "A5" "alice" 100 100 "L" t0 in
  let '(t2, r2) := lockSeat "A5" "bob" 101 101 "M" t1 in
  let '(t3, r3) := confirmBooking "A5" "bob" "L" 102 102 102 t2 in
  let '(t4, r4) := confirmBooking "A5" "alice" "L" 103 103 103 t3 in
  let '(t5, r5) := lockSeat "A5" "carol" 104 104 "N" t4 in
  r1 = LockSuccess "L" 60100 (lockFields "alice" "L" 100 (freshSeat "A" 5))
  ∧ r2 = LockConflict (Some LOCKED)
  ∧ r3 = ConfirmLockedByAnotherUser
  ∧ r4 = ConfirmSuccess
           (bookFields 103 (lockFields "alice" "L" 100 (freshSeat "A" 5)))
  ∧ r5 = LockConflict (Some BOOKED).
Proof. by vm_compute. Qed.

(** Seat B3: dave locks it, the clock passes the expiry, [getSeatById]
    reports it available and erin locks it. *)
Example scenario_B3 :
  let t0 := initializeSeats in
  let '(t1, r1) := lockSeat "B3" "dave" 100 100 "L" t0 in
  let '(t2, r2) := getSeatById 60101 "B3" t1 in
  let '(t3, r3) := lockSeat "B3" "erin" 60102 60102 "M" t2 in
  r1 = LockSuccess "L" 60100 (lockFields "dave" "L" 100 (freshSeat "B" 3))
  ∧ r2 = Own (freshSeat "B" 3)
  ∧ r3 = LockSuccess "M" 120102 (lockFields "erin" "M" 60102 (freshSeat "B" 3)).
Proof. by vm_compute. Qed.

(** Counting: with A1 locked and A2 booked, 38 of the 40 seats are left
    available. *)
Example scenario_statistics :
  let t0 := initializeSeats in
  let '(t1, _) := lockSeat "A1" "user1" 100 100 "L1" t0 in
  let '(t2, _) := lockSeat "A2" "user2" 101 101 "L2" t1 in
  let '(t3, _) := confirmBooking "A2" "user2" "L2" 102 102 102 t2 in
  (getStatistics 103 t3).2
  = {| total := 40; available := 38; locked := 1; booked := 1 |}.
Proof. by vm_compute. Qed.

(** ** The set of seats never changes *)

Lemma identity_expire now seat : identity (expire now seat) = identity seat.
Proof. unfold expire. by destruct (lockExpired now seat). Qed.

Lemma identity_cleanup now (seats : gmap string Seat) seatId :
  identity <$> cleanupExpiredLocks now seats !! seatId
  = identity <$> seats !! seatId.
Proof.
  rewrite lookup_cleanup. destruct (seats !! seatId); simpl; [| done].
  by rewrite identity_expire.
Qed.

Lemma lockSeat_cases seatId u now lockedAt_ lid seats :
  (∃ r, lockSeat seatId u now lockedAt_ lid seats
        = (cleanupExpiredLocks now seats, r)
        ∧ ∀ l e s, r ≠ LockSuccess l e s)
  ∨ (∃ seat, cleanupExpiredLocks now seats !! seatId = Some seat
             ∧ status seat = AVAILABLE
             ∧ lockSeat seatId u now lockedAt_ lid seats
               = (<[seatId := lockFields u lid lockedAt_ seat]>
                    (cleanupExpiredLocks now seats),
                  LockSuccess lid (lockedAt_ + LOCK_DURATION)
                    (lockFields u lid lockedAt_ seat))).
Proof.
  unfold lockSeat, get.
  destruct (cleanupExpiredLocks now seats !! seatId) as [seat |] eqn:Hs.
  - case_bool_decide as H; [left; by eexists |].
    right. exists seat. split; [done |]. split; [| done].
    by destruct (decide (status seat = AVAILABLE)).
  - left. destruct (inherited seatId); by eexists.
Qed.

Lemma identity_insert (seats : gmap string Seat) seatId seat seat' other :
  seats !! seatId = Some seat → identity seat' = identity seat →
  identity <$> <[seatId := seat']> seats !! other = identity <$> seats !! other.
Proof.
  intros Hs Hi. destruct (decide (seatId = other)) as [<- | Hne].
  - rewrite lookup_insert_eq, Hs. simpl. by rewrite Hi.
  - by rewrite lookup_insert_ne.
Qed.

Lemma identity_perform op (seats : gmap string Seat) seatId :
  isReset op = false →
  identity <$> perform op seats !! seatId = identity <$> seats !! seatId.
Proof.
  intros Hr. destruct op as [now | now k | k u now la lid | k u l now c b
                            | k u l | now | now |]; try discriminate Hr;
    cbn [perform getAllSeats getSeatById getStatistics fst];
    try apply identity_cleanup.
  - destruct (lockSeat_cases k u now la lid seats)
      as [(r & -> & _) | (seat & Hs & _ & ->)]; simpl.
    + apply identity_cleanup.
    + rewrite (identity_insert _ _ seat); [apply identity_cleanup | done | done].
  - destruct (confirmBooking_cases k u l now c b seats)
      as [(r & -> & _) | [(seat & Hs & _ & ->) | (seat & Hs & _ & _ & ->)]];
      simpl; try apply identity_cleanup;
      (rewrite (identity_insert _ _ seat); [apply identity_cleanup | done | done]).
  - destruct (unlockSeat_cases k u l seats)
      as [(r & -> & _) | (seat & Hs & _ & ->)]; simpl; [done |].
    by rewrite (identity_insert _ _ seat).
Qed.

Lemma identity_perform_any op (seats : gmap string Seat) seatId :
  (∀ k, identity <$> seats !! k = identity <$> initializeSeats !! k) →
  identity <$> perform op seats !! seatId
  = identity <$> initializeSeats !! seatId.
Proof.
  intros H. destruct (isReset op) eqn:Hr.
  - by destruct op.
  - by rewrite identity_perform.
Qed.

Lemma identity_run ops seatId :
  identity <$> run ops !! seatId = identity <$> initializeSeats !! seatId.
Proof.
  revert seatId. unfold run.
  induction ops as [| op ops IH] using rev_ind; intros seatId; [done |].
  rewrite foldl_app. cbn [foldl]. by apply identity_perform_any.
Qed.

Lemma initializeSeats_ids :
  map_Forall (fun seatId seat => id seat = seatId) initializeSeats.
Proof.
  unfold initializeSeats, rows, seatNumbers. cbn [foldl].
  repeat (apply map_Forall_insert_2; [reflexivity |]).
  apply map_Forall_empty.
Qed.

Lemma run_dom ops : dom (run ops) = dom initializeSeats.
Proof.
  apply set_eq. intros k. rewrite !elem_of_dom.
  pose proof (identity_run ops k) as H.
  destruct (run ops !! k), (initializeSeats !! k); simpl in H;
    try done; split; intros [? ?]; done.
Qed.

Lemma run_size ops : size (run ops) = 40%nat.
Proof. rewrite <- size_dom, run_dom, size_dom. apply initializeSeats_size. Qed.

(** X1. Whatever operations have run since the module was loaded, the table
    holds the same 40 seat identifiers as after [initializeSeats], every seat
    is stored under its own [id], and its [id], [row] and [number] are those
    it was created with. *)
Theorem registry_is_fixed ops seatId :
  identity <$> run ops !! seatId = identity <$> initializeSeats !! seatId
  ∧ dom (run ops) = dom initializeSeats
  ∧ size (run ops) = 40%nat
  ∧ (∀ seat, run ops !! seatId = Some seat → id seat = seatId).
Proof.
  split; [apply identity_run |]. split; [apply run_dom |]. split.
  - apply run_size.
  - intros seat Hs. pose proof (identity_run ops seatId) as H.
    rewrite Hs in H. destruct (initializeSeats !! seatId) as [seat0 |] eqn:H0;
      simpl in H; [| done].
    injection H as H _ _. rewrite H. by apply (initializeSeats_ids seatId).
Qed.

(** ** Counting *)

Lemma countSeat_foldr (l : list Seat) :
  let stats := foldr countSeat
                 {| total := 0; available := 0; locked := 0; booked := 0 |} l in
  total stats = Z.of_nat (length l)
  ∧ available stats = countStatus AVAILABLE l
  ∧ locked stats = countStatus LOCKED l
  ∧ booked stats = countStatus BOOKED l.
Proof.
  induction l as [| seat l IH]; [done |].
  cbn zeta in *. destruct IH as (Ht & Ha & Hl & Hb).
  cbn [foldr]. unfold countStatus in *. rewrite !filter_cons.
  set (rest := foldr countSeat _ l) in *. unfold countSeat.
  destruct (status seat) eqn:E; cbn [total available locked booked];
    rewrite ?Ht, ?Ha, ?Hl, ?Hb; repeat case_decide; try congruence;
    cbn [length]; repeat split; lia.
Qed.

Lemma countStatus_total (l : list Seat) :
  countStatus AVAILABLE l + countStatus LOCKED l + countStatus BOOKED l
  = Z.of_nat (length l).
Proof.
  unfold countStatus. induction l as [| seat l IH]; [done |].
  rewrite !filter_cons.
  destruct (status seat) eqn:E; repeat case_decide; try congruence;
    cbn [length]; lia.
Qed.

(** X2. [getStatistics] counts every seat of the table once: [total] is the
    size of the table, each of the three counters is the number of seats
    with that status once the sweep has run, and the three counters add up
    to [total]. *)
Theorem getStatistics_counts now (seats : gmap string Seat) :
  total (getStatistics now seats).2 = Z.of_nat (size seats)
  ∧ available (getStatistics now seats).2
    = countStatus AVAILABLE (getAllSeats now seats).2
  ∧ locked (getStatistics now seats).2
    = countStatus LOCKED (getAllSeats now seats).2
  ∧ booked (getStatistics now seats).2
    = countStatus BOOKED (getAllSeats now seats).2
  ∧ available (getStatistics now seats).2 + locked (getStatistics now seats).2
    + booked (getStatistics now seats).2
    = total (getStatistics now seats).2.
Proof.
  unfold getStatistics, getAllSeats. cbn [snd].
  destruct (countSeat_foldr (map_to_list (cleanupExpiredLocks now seats)).*2)
    as (Ht & Ha & Hl & Hb).
  rewrite Ht, Ha, Hl, Hb, countStatus_total.
  repeat split; try done.
  rewrite length_fmap, length_map_to_list. unfold cleanupExpiredLocks.
  by rewrite map_size_fmap.
Qed.

(** ** Sweeps compose *)

Lemma expire_expire t1 t2 seat :
  expire t2 (expire t1 seat) = expire (Z.max t1 t2) seat.
Proof.
  unfold expire at 2 3. unfold lockExpired.
  destruct (status seat) eqn:Hs, (lockExpiresAt seat) as [e |] eqn:He;
    try (unfold expire, lockExpired; by rewrite Hs, ?He).
  destruct (Z.ltb_spec e t1), (Z.ltb_spec e (Z.max t1 t2)); try lia.
  - done.
  - unfold expire, lockExpired. rewrite Hs, He.
    destruct (Z.ltb_spec e t2); [done | lia].
  - unfold expire, lockExpired. rewrite Hs, He.
    destruct (Z.ltb_spec e t2); [lia | done].
Qed.

(** X3. Two sweeps in a row are one sweep at the later of the two clock
    reads; in particular a sweep repeated at the same time, or at an
    earlier one, changes nothing more. *)
Theorem cleanup_twice t1 t2 (seats : gmap string Seat) :
  cleanupExpiredLocks t2 (cleanupExpiredLocks t1 seats)
  = cleanupExpiredLocks (Z.max t1 t2) seats.
Proof.
  apply map_eq. intros k. rewrite !lookup_cleanup.
  destruct (seats !! k); simpl; [by rewrite expire_expire | done].
Qed.

(** ** Lock, then unlock or confirm *)

Lemma clearLock_lockFields u lid lockedAt_ seat :
  status seat = AVAILABLE → seatInvariant seat →
  clearLock (lockFields u lid lockedAt_ seat) = seat.
Proof.
  intros Ha [Hav _]. destruct (proj1 Hav Ha) as (Hu & Hl & Hla & He).
  destruct seat; simpl in *. by subst.
Qed.

(** X4. Locking an available seat and unlocking it with the same user and
    the identifier returned restores the table the lock's sweep had left:
    the seat is again exactly as it was, and nothing else has changed. The
    seat is assumed to satisfy the invariants of the data model (its holder
    and lock fields are [null] while it is available). *)
Theorem lock_then_unlock seatId u now lockedAt_ lid (seats : gmap string Seat) seat :
  cleanupExpiredLocks now seats !! seatId = Some seat →
  status seat = AVAILABLE → seatInvariant seat →
  unlockSeat seatId u lid (lockSeat seatId u now lockedAt_ lid seats).1
  = (cleanupExpiredLocks now seats, UnlockSuccess seat).
Proof.
  intros Hs Ha Hi. rewrite (lockSeat_available _ _ _ _ _ _ seat) by done.
  cbn [fst]. unfold unlockSeat.
  rewrite (get_own _ _ (lockFields u lid lockedAt_ seat))
    by apply lookup_insert_eq.
  cbn [status userId lockId lockFields]. decide_guards. cbn [orb].
  rewrite clearLock_lockFields by done.
  rewrite insert_insert_eq. by rewrite (insert_id _ _ _ Hs).
Qed.

Lemma lock_then_unlock_witness :
  unlockSeat "A1" "alice" "lock-1"
    (lockSeat "A1" "alice" 0 0 "lock-1" initializeSeats).1
  = (cleanupExpiredLocks 0 initializeSeats, UnlockSuccess (freshSeat "A" 1)).
Proof.
  apply (lock_then_unlock "A1" "alice" 0 0 "lock-1" initializeSeats
           (freshSeat "A" 1)).
  - by vm_compute.
  - reflexivity.
  - apply pristine_invariant, freshSeat_pristine.
Defined.

(** X5. After a successful [lockSeat], a [confirmBooking] by the same user
    with the identifier returned books the seat when its sweep and its
    expiry test both read a time no later than the lock's expiry; the
    holder is kept and [bookedAt] is the third read. When the sweep reads a
    later time, the lock is gone and the call finds the seat not locked. *)
Theorem lock_then_confirm seatId u now lockedAt_ lid (seats : gmap string Seat) seat
    now' checkedAt bookedAt_ :
  cleanupExpiredLocks now seats !! seatId = Some seat →
  status seat = AVAILABLE →
  (now' ≤ lockedAt_ + LOCK_DURATION → checkedAt ≤ lockedAt_ + LOCK_DURATION →
     ∃ seat',
       (confirmBooking seatId u lid now' checkedAt bookedAt_
          (lockSeat seatId u now lockedAt_ lid seats).1).2
       = ConfirmSuccess seat'
       ∧ status seat' = BOOKED ∧ userId seat' = Some u
       ∧ bookedAt seat' = Some bookedAt_ ∧ lockId seat' = None
       ∧ (confirmBooking seatId u lid now' checkedAt bookedAt_
            (lockSeat seatId u now lockedAt_ lid seats).1).1 !! seatId
         = Some seat')
  ∧ (lockedAt_ + LOCK_DURATION < now' →
     (confirmBooking seatId u lid now' checkedAt bookedAt_
        (lockSeat seatId u now lockedAt_ lid seats).1).2
     = ConfirmNotLocked (Some AVAILABLE)).
Proof.
  intros Hs Ha. rewrite (lockSeat_available _ _ _ _ _ _ seat) by done.
  cbn [fst].
  set (locked := lockFields u lid lockedAt_ seat).
  set (table := <[seatId := locked]> (cleanupExpiredLocks now seats)).
  assert (table !! seatId = Some locked) as Ht by apply lookup_insert_eq.
  assert (lockedSince lockedAt_ locked) as Hl by apply lockFields_lockedSince.
  split.
  - intros H1 H2. exists (bookFields bookedAt_ locked).
    unfold confirmBooking.
    rewrite (get_own _ _ locked)
      by (by rewrite lookup_cleanup, Ht; simpl;
          rewrite (lockedSince_not_expired lockedAt_)).
    subst locked.
    cbn [status userId lockId lockExpiresAt lockFields dateAfter].
    decide_guards. rewrite (proj2 (Z.ltb_ge _ _) H2). cbn [fst snd].
    repeat split; try done. apply lookup_insert_eq.
  - intros H1. unfold confirmBooking.
    rewrite (get_own _ _ (clearLock locked))
      by (by apply (cleanup_stale _ _ _ _ lockedAt_)).
    by decide_guards.
Qed.

Lemma lock_then_confirm_witness :
  (confirmBooking "A1" "alice" "lock-1" 60001 60001 60001
     (lockSeat "A1" "alice" 0 0 "lock-1" initializeSeats).1).2
  = ConfirmNotLocked (Some AVAILABLE).
Proof.
  refine (proj2 (lock_then_confirm "A1" "alice" 0 0 "lock-1" initializeSeats
                   (freshSeat "A" 1) 60001 60001 60001 _ _) _).
  - by vm_compute.
  - reflexivity.
  - by vm_compute.
Defined.

(** X6. On a table whose seats satisfy the invariants, [confirmBooking]
    answers with the expired failure only when its expiry test reads a
    later time than its sweep did: the lock was still standing at the sweep
    ([now] not past the expiry) and is past at the test. With one and the
    same clock value for both, the expired failure cannot occur. *)
Theorem expired_needs_clock_advance seatId u l now checkedAt bookedAt_
    (seats : gmap string Seat) :
  tableInvariant seats →
  (confirmBooking seatId u l now checkedAt bookedAt_ seats).2
  = ConfirmLockExpired →
  ∃ seat expiresAt,
    seats !! seatId = Some seat ∧ lockExpiresAt seat = Some expiresAt
    ∧ now ≤ expiresAt ∧ expiresAt < checkedAt.
Proof.
  intros Hinv Hr.
  unfold confirmBooking, get in Hr. rewrite lookup_cleanup in Hr.
  destruct (seats !! seatId) as [seat |] eqn:Hs; simpl in Hr;
    [| by destruct (inherited seatId)].
  repeat case_bool_decide; try done.
  destruct (dateAfter checkedAt (lockExpiresAt (expire now seat))) eqn:Hd;
    [| done].
  assert (status (expire now seat) = LOCKED) as Hl
    by (by destruct (decide (status (expire now seat) = LOCKED))).
  unfold expire in Hl, Hd. destruct (lockExpired now seat) eqn:He; [done |].
  destruct (Hinv _ _ Hs) as (_ & Hlocked & _).
  destruct (Hlocked Hl) as (_ & _ & issuedAt & Hla & Hle).
  exists seat, (issuedAt + LOCK_DURATION). split; [done |]. split; [done |].
  unfold lockExpired in He. rewrite Hl, Hle in He. rewrite Hle in Hd.
  apply Z.ltb_ge in He. apply Z.ltb_lt in Hd. done.
Qed.

Lemma expired_needs_clock_advance_witness :
  ∃ seat expiresAt,
    oneLock !! "A1"%string = Some seat ∧ lockExpiresAt seat = Some expiresAt
    ∧ 60000 ≤ expiresAt ∧ expiresAt < 60001.
Proof.
  apply (expired_needs_clock_advance "A1" "alice" "lock-1" 60000 60001 60001).
  - apply run_invariant.
  - by vm_compute.
Defined.

(** ** Booked seats *)

Lemma cleanup_booked now (seats : gmap string Seat) seatId seat :
  seats !! seatId = Some seat → status seat = BOOKED →
  cleanupExpiredLocks now seats !! seatId = Some seat.
Proof.
  intros Hs Hb. rewrite lookup_cleanup, Hs. simpl.
  rewrite expire_not_locked; [done | by rewrite Hb].
Qed.

Lemma perform_booked op (seats : gmap string Seat) seatId seat :
  isReset op = false →
  seats !! seatId = Some seat → status seat = BOOKED →
  perform op seats !! seatId = Some seat.
Proof.
  intros Hr Hs Hb.
  destruct op as [now | now k | k u now la lid | k u l now c b
                 | k u l | now | now |]; try discriminate Hr;
    cbn [perform getAllSeats getSeatById getStatistics fst];
    try (by apply cleanup_booked).
  - destruct (lockSeat_cases k u now la lid seats)
      as [(r & -> & _) | (seat0 & Hs0 & Ha & ->)]; cbn [fst];
      [by apply cleanup_booked |].
    rewrite lookup_insert_ne; [by apply cleanup_booked |].
    intros ->. rewrite (cleanup_booked _ _ _ _ Hs Hb) in Hs0. congruence.
  - destruct (confirmBooking_cases k u l now c b seats)
      as [(r & -> & _) | [(seat0 & Hs0 & Hl & ->) | (seat0 & Hs0 & Hl & _ & ->)]];
      cbn [fst]; [by apply cleanup_booked | |];
      (rewrite lookup_insert_ne; [by apply cleanup_booked |];
       intros ->; rewrite (cleanup_booked _ _ _ _ Hs Hb) in Hs0; congruence).
  - destruct (unlockSeat_cases k u l seats)
      as [(r & -> & _) | (seat0 & Hs0 & Hl & ->)]; cbn [fst]; [done |].
    rewrite lookup_insert_ne; [done |]. intros ->. congruence.
Qed.

(** X7. A booked seat stays as it is: no sequence of reads, sweeps,
    [lockSeat], [confirmBooking] and [unlockSeat] calls, with any arguments
    and clock reads, changes any field of it; only [resetSeats] does. Each
    later [lockSeat] on it fails with the conflict carrying 'booked', and
    each later [confirmBooking] or [unlockSeat] fails as not locked. *)
Theorem booked_is_final ops (seats : gmap string Seat) seatId seat :
  seats !! seatId = Some seat → status seat = BOOKED →
  Forall (fun op => isReset op = false) ops →
  performAll seats ops !! seatId = Some seat
  ∧ (∀ u now lockedAt_ lid,
       (lockSeat seatId u now lockedAt_ lid (performAll seats ops)).2
       = LockConflict (Some BOOKED))
  ∧ (∀ u l now checkedAt bookedAt_,
       (confirmBooking seatId u l now checkedAt bookedAt_
          (performAll seats ops)).2
       = ConfirmNotLocked (Some BOOKED))
  ∧ (∀ u l,
       (unlockSeat seatId u l (performAll seats ops)).2
       = UnlockNotLocked (Some BOOKED)).
Proof.
  intros Hs Hb Hops.
  assert (performAll seats ops !! seatId = Some seat) as Hp.
  { revert seats Hs. unfold performAll.
    induction Hops as [| op ops Hr _ IH]; intros seats Hs; [done |].
    cbn [foldl]. apply IH. by apply perform_booked. }
  split; [done |]. split; [| split].
  - intros. rewrite (lockSeat_unavailable _ _ _ _ _ _ seat);
      [by rewrite Hb | by apply cleanup_booked | by rewrite Hb].
  - intros. unfold confirmBooking.
    rewrite (get_own _ _ seat) by (by apply cleanup_booked).
    rewrite Hb. by decide_guards.
  - intros. unfold unlockSeat. rewrite (get_own _ _ seat) by done.
    rewrite Hb. by decide_guards.
Qed.

Lemma booked_is_final_witness :
  performAll
    (run [OpLockSeat "A1" "alice" 0 0 "lock-1";
          OpConfirmBooking "A1" "alice" "lock-1" 1 1 1])
    [OpUnlockSeat "A1" "alice" "lock-1"; OpCleanup 99999] !! "A1"%string
  = Some (bookFields 1 (lockFields "alice" "lock-1" 0 (freshSeat "A" 1))).
Proof.
  refine (proj1 (booked_is_final
            [OpUnlockSeat "A1" "alice" "lock-1"; OpCleanup 99999]%string
            _ "A1"%string _ _ _ _)).
  - by vm_compute.
  - reflexivity.
  - by repeat constructor.
Defined.

(** ** Who can confirm and unlock *)

(** X8. [confirmBooking] and [unlockSeat] succeed only for the holder of the
    lock: a success means the seat was locked, its stored holder is the
    caller's [userId] and its stored lock identifier is the caller's
    [lockId] (for [confirmBooking]: in the table as swept, and with the
    expiry not passed at the expiry test). With any other user or
    identifier on a standing lock, both calls fail, and the seat keeps its
    holder and its lock. *)
Theorem only_the_holder_succeeds seatId u l (seats : gmap string Seat) :
  (∀ now checkedAt bookedAt_ seats' seat',
     confirmBooking seatId u l now checkedAt bookedAt_ seats
     = (seats', ConfirmSuccess seat') →
     ∃ seat, cleanupExpiredLocks now seats !! seatId = Some seat
             ∧ status seat = LOCKED ∧ userId seat = Some u
             ∧ lockId seat = Some l
             ∧ dateAfter checkedAt (lockExpiresAt seat) = false
             ∧ userId seat' = Some u)
  ∧ (∀ seats' seat',
       unlockSeat seatId u l seats = (seats', UnlockSuccess seat') →
       ∃ seat, seats !! seatId = Some seat ∧ status seat = LOCKED
               ∧ userId seat = Some u ∧ lockId seat = Some l)
  ∧ (∀ seat, seats !! seatId = Some seat → status seat = LOCKED →
       userId seat ≠ Some u ∨ lockId seat ≠ Some l →
       unlockSeat seatId u l seats = (seats, UnlockInvalidUserOrLockId)
       ∧ ∀ now checkedAt bookedAt_,
           lockExpired now seat = false →
           confirmFailed
             (confirmBooking seatId u l now checkedAt bookedAt_ seats).2
           ∧ (confirmBooking seatId u l now checkedAt bookedAt_ seats).1
               !! seatId = Some seat).
Proof.
  split; [| split].
  - intros now checkedAt bookedAt_ seats' seat' H.
    unfold confirmBooking, get in H.
    destruct (cleanupExpiredLocks now seats !! seatId) as [seat |] eqn:Hs;
      [| by destruct (inherited seatId)].
    case_bool_decide as H1; [done |]. case_bool_decide as H2; [done |].
    case_bool_decide as H3; [done |].
    destruct (dateAfter checkedAt (lockExpiresAt seat)) eqn:Hd; [done |].
    injection H as _ <-. exists seat.
    assert (userId seat = Some u) as Hu
      by (by destruct (decide (userId seat = Some u))).
    repeat split; try done;
      first [ by destruct (decide (status seat = LOCKED))
            | by destruct (decide (lockId seat = Some l)) ].
  - intros seats' seat' H. unfold unlockSeat, get in H.
    destruct (seats !! seatId) as [seat |] eqn:Hs;
      [| by destruct (inherited seatId)].
    case_bool_decide as H1; [done |].
    case_bool_decide as H2; [done |]. case_bool_decide as H3; [done |].
    exists seat. repeat split; try done;
      first [ by destruct (decide (status seat = LOCKED))
            | by destruct (decide (userId seat = Some u))
            | by destruct (decide (lockId seat = Some l)) ].
  - intros seat Hs Hl Hne. split.
    + unfold unlockSeat. rewrite (get_own _ _ _ Hs).
      destruct Hne as [Hne | Hne]; decide_guards; [done |].
      by rewrite orb_true_r.
    + intros now checkedAt bookedAt_ He.
      assert (cleanupExpiredLocks now seats !! seatId = Some seat) as Hc
        by (by rewrite lookup_cleanup, Hs; simpl; unfold expire; rewrite He).
      unfold confirmBooking. rewrite (get_own _ _ _ Hc).
      destruct Hne as [Hne | Hne]; decide_guards; [done |].
      case_bool_decide; done.
Qed.

(** ** What the reads show *)

Lemma lockExpired_expire now seat : lockExpired now (expire now seat) = false.
Proof.
  unfold expire. destruct (lockExpired now seat) eqn:E; [done | by rewrite E].
Qed.

Lemma lockExpired_false now seat expiresAt :
  lockExpired now seat = false → status seat = LOCKED →
  lockExpiresAt seat = Some expiresAt → now ≤ expiresAt.
Proof.
  unfold lockExpired. intros H Hs He. rewrite Hs, He in H.
  by apply Z.ltb_ge.
Qed.

(** X9. No read returns a lock that has run out: every seat in the list of
    [getAllSeats], and the seat returned by [getSeatById], if it is locked
    with an expiry set, has an expiry no earlier than the clock read of the
    call; the same holds of every seat of the table the read leaves. *)
Theorem reads_show_no_expired_lock now (seats : gmap string Seat) :
  (∀ seat expiresAt,
     seat ∈ (getAllSeats now seats).2 → status seat = LOCKED →
     lockExpiresAt seat = Some expiresAt → now ≤ expiresAt)
  ∧ (∀ seatId seat expiresAt,
       (getSeatById now seatId seats).2 = Own seat → status seat = LOCKED →
       lockExpiresAt seat = Some expiresAt → now ≤ expiresAt)
  ∧ (∀ seatId seat expiresAt,
       (getStatistics now seats).1 !! seatId = Some seat →
       status seat = LOCKED →
       lockExpiresAt seat = Some expiresAt → now ≤ expiresAt).
Proof.
  assert (∀ k seat, cleanupExpiredLocks now seats !! k = Some seat →
                    lockExpired now seat = false) as Hsw.
  { intros k seat. rewrite lookup_cleanup.
    destruct (seats !! k); simpl; [| done].
    intros [= <-]. apply lockExpired_expire. }
  split; [| split].
  - intros seat e Hin. unfold getAllSeats in Hin. cbn [snd] in Hin.
    apply list_elem_of_fmap in Hin as ([k seat0] & -> & Hin).
    apply elem_of_map_to_list in Hin. cbn [snd].
    by apply lockExpired_false, (Hsw k).
  - intros seatId seat e H. unfold getSeatById, get in H. cbn [snd] in H.
    destruct (cleanupExpiredLocks now seats !! seatId) as [seat0 |] eqn:Hs;
      [| by destruct (inherited seatId)].
    injection H as ->. by apply lockExpired_false, (Hsw seatId).
  - intros seatId seat e H. by apply lockExpired_false, (Hsw seatId).
Qed.

(** X10. A lock stands for exactly [LOCK_DURATION]: after a successful
    [lockSeat] that read [lockedAt_], [getSeatById] at any time up to and
    including [lockedAt_ + LOCK_DURATION] returns the seat locked, with its
    holder and lock identifier, and at any later time returns it available
    with holder and lock fields cleared. *)
Theorem lock_lasts_lock_duration seatId u now lockedAt_ lid
    (seats : gmap string Seat) seat later :
  cleanupExpiredLocks now seats !! seatId = Some seat →
  status seat = AVAILABLE →
  (later ≤ lockedAt_ + LOCK_DURATION →
     (getSeatById later seatId
        (lockSeat seatId u now lockedAt_ lid seats).1).2
     = Own (lockFields u lid lockedAt_ seat))
  ∧ (lockedAt_ + LOCK_DURATION < later →
     (getSeatById later seatId
        (lockSeat seatId u now lockedAt_ lid seats).1).2
     = Own (clearLock (lockFields u lid lockedAt_ seat))).
Proof.
  intros Hs Ha. rewrite (lockSeat_available _ _ _ _ _ _ seat) by done.
  cbn [fst]. unfold getSeatById. cbn [snd].
  pose proof (lockFields_lockedSince u lid lockedAt_ seat) as Hl.
  split; intros Ht.
  - apply get_own. rewrite lookup_cleanup, lookup_insert_eq. simpl.
    by rewrite (lockedSince_not_expired lockedAt_).
  - apply get_own. apply (cleanup_stale _ _ _ _ lockedAt_); [| done | done].
    apply lookup_insert_eq.
Qed.

Lemma lock_lasts_lock_duration_witness :
  (getSeatById 60000 "A1"
     (lockSeat "A1" "alice" 0 0 "lock-1" initializeSeats).1).2
  = Own (lockFields "alice" "lock-1" 0 (freshSeat "A" 1)).
Proof.
  refine (proj1 (lock_lasts_lock_duration "A1" "alice" 0 0 "lock-1"
                   initializeSeats (freshSeat "A" 1) 60000 _ _) _).
  - by vm_compute.
  - reflexivity.
  - by vm_compute.
Defined.

(** ** Runs of the event loop *)

Lemma tryBlock_invariant req rd (table : gmap string Seat) :
  tableInvariant table → tableInvariant (tryBlock req rd table).1.
Proof.
  intros H. destruct req as [k u | k u l | k u l]; unfold tryBlock.
  - pose proof (lockSeat_invariant k u (first rd) (second rd) (uuid rd) _ H).
    by destruct (lockSeat _ _ _ _ _ _).
  - pose proof (confirmBooking_invariant k u l (first rd) (second rd)
                  (third rd) _ H).
    by destruct (confirmBooking _ _ _ _ _ _ _).
  - pose proof (unlockSeat_invariant k u l _ H).
    by destruct (unlockSeat _ _ _ _).
Qed.

Lemma step_requests st job : request <$> calls (step st job) = request <$> calls st.
Proof.
  destruct job as [i | i rd | now]; simpl; [| | done].
  - destruct (calls st !! i) as [[req | req | req resp] |] eqn:Hi; try done.
    destruct (checkMutex _ _); [| done]. simpl.
    by rewrite (request_insert _ _ _ _ Hi).
  - destruct (calls st !! i) as [[req | req | req resp] |] eqn:Hi; try done.
    destruct (tryBlock _ _ _). simpl. by rewrite (request_insert _ _ _ _ Hi).
Qed.

Lemma step_tableInvariant st job :
  tableInvariant (seats st) → tableInvariant (seats (step st job)).
Proof.
  intros H. destruct job as [i | i rd | now]; simpl.
  - destruct (calls st !! i) as [[req | req | req resp] |]; try done.
    by destruct (checkMutex _ _).
  - destruct (calls st !! i) as [[req | req | req resp] |]; try done.
    pose proof (tryBlock_invariant req rd _ H).
    by destruct (tryBlock _ _ _).
  - by apply cleanup_invariant.
Qed.

(** X11. Interleaving does not break the data model: for any calls of the
    three [async] methods and any order of their polls and continuations
    and of sweeps, a table whose seats satisfy the invariants still does
    after the run, and every call is still the call that was made. *)
Theorem interleaving_keeps_invariants (table : gmap string Seat) reqs jobs :
  tableInvariant table →
  tableInvariant (seats (runJobs (start table reqs) jobs))
  ∧ request <$> calls (runJobs (start table reqs) jobs) = reqs.
Proof.
  intros H.
  assert (∀ st, tableInvariant (seats st) →
                tableInvariant (seats (runJobs st jobs))
                ∧ request <$> calls (runJobs st jobs) = request <$> calls st)
    as Hgen.
  { induction jobs as [| job jobs IH]; intros st Hst; [done |].
    cbn [runJobs foldl]. fold (runJobs (step st job) jobs).
    destruct (IH (step st job) (step_tableInvariant _ _ Hst)) as [H1 H2].
    split; [done |]. by rewrite H2, step_requests. }
  destruct (Hgen (start table reqs) H) as [H1 H2]. split; [done |].
  rewrite H2. simpl. rewrite <- list_fmap_compose. apply list_fmap_id.
Qed.

Lemma interleaving_keeps_invariants_witness :
  tableInvariant (seats (contest "A5" threeUsers initializeSeats threeCalls)).
Proof.
  exact (proj1 (interleaving_keeps_invariants initializeSeats
                  (LockSeat "A5" <$> threeUsers) threeCalls
                  initializeSeats_invariant)).
Defined.

(** X12. The mutex does not leak: in any run of calls of the three methods
    started with no mutex set, whenever no call is between its successful
    [checkMutex] and its continuation, [seatMutex] is empty; in particular
    it is empty once all calls have returned. *)
Theorem mutex_is_released (table : gmap string Seat) reqs jobs :
  (∀ j c, calls (runJobs (start table reqs) jobs) !! j = Some c →
          holding c = false) →
  seatMutex (runJobs (start table reqs) jobs) = ∅.
Proof.
  intros Hnone.
  destruct (runJobs_mutualExclusion jobs _ (start_mutualExclusion table reqs))
    as [Hset _].
  apply set_eq. intros k. split; [| set_solver].
  intros Hk. apply Hset in Hk as (j & req & Hj & _).
  by pose proof (Hnone _ _ Hj).
Qed.

Lemma mutex_is_released_witness :
  seatMutex (contest "A5" threeUsers initializeSeats threeCalls) = ∅.
Proof.
  apply mutex_is_released. intros j c Hj.
  pose proof (threeCalls_settled j c Hj). by destruct c.
Defined.

(** ** Calls on different seats *)

Lemma lockRequests_lookup pairs (cs : list Call) i c :
  request <$> cs = lockRequests pairs → cs !! i = Some c →
  ∃ p, pairs !! i = Some p ∧ request c = LockSeat p.1 p.2.
Proof.
  intros Hreq Hi.
  assert ((request <$> cs) !! i = Some (request c)) as H
    by (by rewrite list_lookup_fmap, Hi).
  rewrite Hreq in H. unfold lockRequests in H. rewrite list_lookup_fmap in H.
  destruct (pairs !! i) as [p |]; [| done]. exists p. by injection H as <-.
Qed.

Lemma lockRequests_distinct pairs (cs : list Call) i j ci cj :
  NoDup pairs.*1 → request <$> cs = lockRequests pairs →
  cs !! i = Some ci → cs !! j = Some cj → i ≠ j →
  target (request ci) ≠ target (request cj).
Proof.
  intros Hnd Hreq Hi Hj Hne Ht.
  destruct (lockRequests_lookup _ _ _ _ Hreq Hi) as (pi & Hpi & Hri).
  destruct (lockRequests_lookup _ _ _ _ Hreq Hj) as (pj & Hpj & Hrj).
  rewrite Hri, Hrj in Ht. simpl in Ht.
  apply Hne. apply (NoDup_lookup pairs.*1 i j pi.1); [done | |].
  - by rewrite list_lookup_fmap, Hpi.
  - by rewrite list_lookup_fmap, Hpj, Ht.
Qed.

Lemma start_uncontended pairs (table : gmap string Seat) :
  (∀ p, p ∈ pairs → ∃ seat, table !! p.1 = Some seat ∧ status seat = AVAILABLE) →
  uncontended pairs (start table (lockRequests pairs)).
Proof.
  intros Hav. split.
  - simpl. rewrite <- list_fmap_compose. apply list_fmap_id.
  - intros i c Hi. simpl in Hi. rewrite list_lookup_fmap in Hi.
    unfold lockRequests in Hi. rewrite list_lookup_fmap in Hi.
    destruct (pairs !! i) as [p |] eqn:Hp; [| done].
    injection Hi as <-. simpl. apply Hav. by apply (list_elem_of_lookup_2 _ i).
Qed.

Lemma step_uncontended pairs st job :
  NoDup pairs.*1 → uncontended pairs st → uncontended pairs (step st job).
Proof.
  intros Hnd [Hreq Hcalls].
  split; [by rewrite step_requests |].
  destruct job as [i | i rd | now]; simpl.
  - destruct (calls st !! i) as [[req | req | req resp] |] eqn:Hi; try done.
    destruct (checkMutex _ _); [| done]. simpl.
    intros j c Hj.
    apply list_lookup_insert_Some in Hj as [(_ & <- & _) | (_ & Hj)];
      [apply (Hcalls _ _ Hi) | by apply (Hcalls j)].
  - destruct (calls st !! i) as [[req | req | req resp] |] eqn:Hi; try done.
    destruct (lockRequests_lookup _ _ _ _ Hreq Hi) as (p & Hp & Hr).
    simpl in Hr. subst req.
    destruct (Hcalls _ _ Hi) as (seat & Hs & Ha). simpl in Hs.
    unfold tryBlock.
    rewrite (lockSeat_available _ _ _ _ _ _ seat);
      [| by apply cleanup_available | done].
    simpl. intros j c Hj.
    apply list_lookup_insert_Some in Hj as [(_ & <- & _) | (Hne & Hj)].
    + by exists p.2, (uuid rd), (second rd + LOCK_DURATION),
                (lockFields p.2 (uuid rd) (second rd) seat).
    + pose proof (Hcalls _ _ Hj) as Hc.
      assert (target (request c) ≠ p.1) as Hd.
      { intros Ht.
        by apply (lockRequests_distinct _ _ _ _ _ _ Hnd Hreq Hj Hi). }
      destruct c as [req | req | req resp]; [| | done];
        destruct Hc as (seat' & Hs' & Ha'); exists seat';
        (split; [| done]); rewrite lookup_insert_ne by done;
        by apply cleanup_available.
  - intros j c Hj. pose proof (Hcalls _ _ Hj) as Hc.
    destruct c as [req | req | req resp]; [| | done];
      destruct Hc as (seat' & Hs' & Ha'); exists seat';
      (split; [| done]); by apply cleanup_available.
Qed.

Lemma runJobs_uncontended pairs jobs st :
  NoDup pairs.*1 → uncontended pairs st → uncontended pairs (runJobs st jobs).
Proof.
  intros Hnd. revert st.
  induction jobs as [| job jobs IH]; intros st H; [done |].
  cbn [runJobs foldl]. by apply IH, step_uncontended.
Qed.

(** X13. [lockSeat] calls on different seats never hinder each other. Take
    one call per pair of a seat and a user, the seats pairwise different
    and all available, and any interleaving of polls, continuations and
    sweeps, with any clock reads. Then no poll is ever refused (the mutex of
    a call that is still polling is free), and every call that has returned
    has succeeded, with its own user as holder. *)
Theorem different_seats_do_not_interfere pairs (table : gmap string Seat) jobs :
  NoDup pairs.*1 →
  (∀ p, p ∈ pairs → ∃ seat, table !! p.1 = Some seat ∧ status seat = AVAILABLE) →
  (∀ i req,
     calls (runJobs (start table (lockRequests pairs)) jobs) !! i
     = Some (Polling req) →
     is_Some (checkMutex (target req)
                (seatMutex (runJobs (start table (lockRequests pairs)) jobs))))
  ∧ (∀ i req resp,
       calls (runJobs (start table (lockRequests pairs)) jobs) !! i
       = Some (Settled req resp) →
       ∃ p lid expiresAt seat,
         pairs !! i = Some p ∧ req = LockSeat p.1 p.2
         ∧ resp = Locking (LockSuccess lid expiresAt seat)
         ∧ userId seat = Some p.2).
Proof.
  intros Hnd Hav.
  pose proof (runJobs_uncontended pairs jobs _ Hnd
                (start_uncontended pairs table Hav)) as [Hreq Hcalls].
  pose proof (runJobs_mutualExclusion jobs _
                (start_mutualExclusion table (lockRequests pairs))) as [Hset _].
  split.
  - intros i req Hi. unfold checkMutex. case_decide as Hin; [| by eexists].
    exfalso. apply Hset in Hin as (j & r & Hj & Ht).
    apply (lockRequests_distinct _ _ _ _ _ _ Hnd Hreq Hj Hi); [| done].
    intros ->. congruence.
  - intros i req resp Hi.
    destruct (Hcalls _ _ Hi) as (u & lid & e & seat & Hr & -> & Hu).
    destruct (lockRequests_lookup _ _ _ _ Hreq Hi) as (p & Hp & Hrp).
    simpl in Hrp. exists p, lid, e, seat. repeat split; try done.
    rewrite Hrp in Hr. simpl in Hr. injection Hr as <-. done.
Qed.

Lemma different_seats_do_not_interfere_witness :
  ∃ p lid expiresAt seat,
    [("A1", "user1"); ("A2", "user2")]%string !! 0%nat = Some p
    ∧ LockSeat "A1" "user1" = LockSeat p.1 p.2
    ∧ Locking (LockSuccess "n" 60006 (lockFields "user1" "n" 6 (freshSeat "A" 1)))
      = Locking (LockSuccess lid expiresAt seat)
    ∧ userId seat = Some p.2.
Proof.
  refine (proj2 (different_seats_do_not_interfere
                   [("A1", "user1"); ("A2", "user2")]%string initializeSeats
                   [CheckMutex 0; CheckMutex 1;
                    Continue 1 {| first := 5; second := 5; third := 5;
                                  uuid := "m" |};
                    Continue 0 {| first := 6; second := 6; third := 6;
                                  uuid := "n" |}]
                   _ _) 0%nat _ _ _).
  - apply (bool_decide_unpack _). by vm_compute.
  - intros p Hp.
    apply elem_of_cons in Hp as [-> | Hp];
      [exists (freshSeat "A" 1); by vm_compute |].
    apply elem_of_cons in Hp as [-> | Hp];
      [exists (freshSeat "A" 2); by vm_compute |].
    by apply elem_of_nil in Hp.
  - by vm_compute.
Defined.

(** ** The texts searched by the controller *)

Lemma lowerCaseLetter_eqb a c :
  lowerCaseLetter a = true → lowerCaseLetter c = false → Ascii.eqb a c = false.
Proof.
  intros Ha Hc. destruct (Ascii.eqb_spec a c) as [-> |]; [congruence | done].
Qed.

Lemma includes_cons_skip pat c s :
  startsWith pat (String c s) = false →
  includes pat (String c s) = includes pat s.
Proof. intros H. cbn [includes]. by rewrite H. Qed.

Lemma append_cons c (s t : string) :
  (String c s ++ t = String c (s ++ t))%string.
Proof. reflexivity. Qed.

Lemma append_empty (t : string) : (EmptyString ++ t = t)%string.
Proof. reflexivity. Qed.

Lemma startsWith_upper_case a pat c s :
  lowerCaseLetter a = true → lowerCaseLetter c = false →
  startsWith (String a pat) (String c s) = false.
Proof.
  intros Ha Hc. cbn [startsWith]. by rewrite lowerCaseLetter_eqb.
Qed.

Lemma includes_upper_case a pat mid tail :
  lowerCaseLetter a = true → hasLowerCase mid = false →
  includes (String a pat) (mid ++ tail)%string = includes (String a pat) tail.
Proof.
  intros Ha. induction mid as [| c mid IH]; intros Hmid; [done |].
  cbn [hasLowerCase] in Hmid. apply orb_false_iff in Hmid as [Hc Hmid].
  rewrite append_cons, includes_cons_skip; [by apply IH |].
  by apply startsWith_upper_case.
Qed.

Lemma includes_upper_case_end a pat mid :
  lowerCaseLetter a = true → hasLowerCase mid = false →
  includes (String a pat) mid = false.
Proof.
  intros Ha. induction mid as [| c mid IH]; intros Hmid; [done |].
  cbn [hasLowerCase] in Hmid. apply orb_false_iff in Hmid as [Hc Hmid].
  rewrite includes_cons_skip; [by apply IH |].
  by apply startsWith_upper_case.
Qed.

(** Searching a text built around an upper-cased identifier: the fixed
    words before the identifier are passed letter by letter, the identifier
    is passed as a whole, and the rest is a fixed text. *)
Ltac search_text H :=
  rewrite ?append_cons, ?append_empty;
  repeat (rewrite includes_cons_skip by reflexivity);
  rewrite ?includes_upper_case, ?includes_upper_case_end
    by first [exact H | reflexivity];
  try reflexivity.

Lemma lockSeatError_kind seatId r :
  hasLowerCase seatId = false →
  includes "not found" (SeatController.value (lockSeatError seatId r))
  = match r with LockSeatNotFound => true | _ => false end.
Proof.
  intros H. destruct r as [l e s | | [[| |] |]];
    cbn [lockSeatError SeatController.value statusText]; by search_text H.
Qed.

Lemma confirmBookingError_kind seatId r :
  hasLowerCase seatId = false →
  includes "not found" (SeatController.value (confirmBookingError seatId r))
  = match r with ConfirmSeatNotFound => true | _ => false end
  ∧ includes "expired" (SeatController.value (confirmBookingError seatId r))
    = match r with ConfirmLockExpired => true | _ => false end.
Proof.
  intros H. destruct r as [s | | [[| |] |] | | |];
    cbn [confirmBookingError SeatController.value statusText];
    split; by search_text H.
Qed.

Lemma unlockSeatError_kind seatId r :
  hasLowerCase seatId = false →
  includes "not found" (SeatController.value (unlockSeatError seatId r))
  = match r with UnlockSeatNotFound => true | _ => false end.
Proof.
  intros H. destruct r as [s | | [[| |] |] |];
    cbn [unlockSeatError SeatController.value statusText]; by search_text H.
Qed.

Lemma upperCaseLetter_upper c : lowerCaseLetter (upperCaseLetter c) = false.
Proof.
  destruct c as [[] [] [] [] [] [] [] []]; by vm_compute.
Qed.

Lemma asciiUpperCase_upper s : hasLowerCase (asciiUpperCase s) = false.
Proof.
  induction s as [| c s IH]; [done |].
  cbn [asciiUpperCase hasLowerCase]. by rewrite upperCaseLetter_upper, IH.
Qed.

(** ** The status codes of the handlers *)

(** X14. POST /seats/:id/lock. Without a [userId] the handler answers 400
    and the model is not called, so the table is not even swept. Otherwise
    the table is the one [SeatModel.lockSeat] leaves, and the status code
    tells the outcome: 200 exactly when the seat exists and is available
    after the sweep, 404 exactly when the table has no seat for the
    upper-cased identifier, 409 exactly when the seat exists and is not
    available. The search of the error text for 'not found' cannot be misled
    by the identifier in the text, because the identifier is upper-cased. *)
Theorem lock_handler_status toUpperCase id_ userId_ now lockedAt_ lid
    (seats seats' : gmap string Seat) resp :
  (∀ s, hasLowerCase (toUpperCase s) = false) →
  SeatController.lockSeat toUpperCase id_ userId_ now lockedAt_ lid seats
  = (seats', resp) →
  (SeatController.statusCode resp = 400 ↔ SeatController.missing userId_ = true)
  ∧ (SeatController.missing userId_ = true → seats' = seats)
  ∧ (SeatController.missing userId_ = false →
     seats' = (lockSeat (toUpperCase id_) (SeatController.value userId_)
                 now lockedAt_ lid seats).1
     ∧ (SeatController.statusCode resp = 200 ↔
          ∃ seat, cleanupExpiredLocks now seats !! toUpperCase id_ = Some seat
                  ∧ status seat = AVAILABLE)
     ∧ (SeatController.statusCode resp = 404 ↔
          seats !! toUpperCase id_ = None)
     ∧ (SeatController.statusCode resp = 409 ↔
          ∃ seat, cleanupExpiredLocks now seats !! toUpperCase id_ = Some seat
                  ∧ status seat ≠ AVAILABLE)).
Proof.
  intros Hup H. unfold SeatController.lockSeat in H.
  destruct (SeatController.missing userId_) eqn:Hm.
  { injection H as <- <-. by repeat split. }
  set (seatId := toUpperCase id_) in *.
  set (u := SeatController.value userId_) in *.
  pose proof (lockSeatError_kind seatId) as Hkind.
  specialize (Hkind (lockSeat seatId u now lockedAt_ lid seats).2 (Hup id_)).
  assert (seats !! seatId = None ↔ cleanupExpiredLocks now seats !! seatId = None)
    as Hnone by (rewrite lookup_cleanup; by destruct (seats !! seatId)).
  destruct (cleanupExpiredLocks now seats !! seatId) as [seat |] eqn:Hs.
  - destruct (decide (status seat = AVAILABLE)) as [Ha | Ha].
    + rewrite (lockSeat_available _ _ _ _ _ _ seat) in H, Hkind |- * by done.
      injection H as <- <-. cbn [fst SeatController.statusCode].
      split; [done |]. split; [done |]. intros _. split; [done |].
      split; [| split].
      * split; [eauto | done].
      * rewrite Hnone. split; [done | done].
      * split; [done |]. intros (seat0 & [= <-] & Hne). done.
    + rewrite (lockSeat_unavailable _ _ _ _ _ _ seat) in H, Hkind |- * by done.
      cbn [snd] in Hkind. rewrite Hkind in H.
      injection H as <- <-. cbn [fst SeatController.statusCode].
      split; [done |]. split; [done |]. intros _. split; [done |].
      split; [| split].
      * split; [done |]. intros (seat0 & [= <-] & Hav). done.
      * rewrite Hnone. split; [done | done].
      * split; [eauto | done].
  - rewrite (lockSeat_missing _ _ _ _ _ _ Hs (upper_case_not_inherited _ (Hup id_)))
      in H, Hkind |- *.
    cbn [snd] in Hkind. rewrite Hkind in H.
    injection H as <- <-. cbn [fst SeatController.statusCode].
    split; [done |]. split; [done |]. intros _. split; [done |].
    split; [| split].
    + split; [done |]. by intros (seat0 & [=] & _).
    + by rewrite Hnone.
    + split; [done |]. by intros (seat0 & [=] & _).
Qed.

Lemma lock_handler_status_witness :
  SeatController.statusCode
    (SeatController.lockSeat asciiUpperCase "a1" (Some "bob") 5 5 "lock-2"
       oneLock).2 = 409
  ↔ ∃ seat, cleanupExpiredLocks 5 oneLock !! asciiUpperCase "a1" = Some seat
            ∧ status seat ≠ AVAILABLE.
Proof.
  refine (proj2 (proj2 (proj2 (proj2 (proj2
            (lock_handler_status asciiUpperCase "a1" (Some "bob") 5 5 "lock-2"
               oneLock _ _ asciiUpperCase_upper _)) eq_refl)))).
  apply surjective_pairing.
Defined.

Lemma confirmBooking_found seatId u l now checkedAt bookedAt_
    (seats : gmap string Seat) :
  inherited seatId = false →
  ((confirmBooking seatId u l now checkedAt bookedAt_ seats).2
   = ConfirmSeatNotFound ↔ seats !! seatId = None).
Proof.
  intros Hi. unfold confirmBooking, get. rewrite lookup_cleanup, Hi.
  destruct (seats !! seatId) as [seat |]; simpl; [| done].
  repeat case_bool_decide; try done.
  by destruct (dateAfter _ _).
Qed.

Lemma unlockSeat_found seatId u l (seats : gmap string Seat) :
  inherited seatId = false →
  ((unlockSeat seatId u l seats).2 = UnlockSeatNotFound ↔
   seats !! seatId = None).
Proof.
  intros Hi. unfold unlockSeat, get. rewrite Hi.
  destruct (seats !! seatId) as [seat |]; simpl; [| done].
  repeat case_bool_decide; done.
Qed.

(** X15. POST /seats/:id/confirm. Without a [userId] or a [lockId] the
    handler answers 400 and the table is untouched. Otherwise the table is
    the one [SeatModel.confirmBooking] leaves and the status code is fixed
    by the kind of its outcome: 201 for a booking, 404 for no such seat (and
    only then), 410 for an expired lock, 409 for a seat that is not locked,
    for another user's lock and for a wrong lock identifier. *)
Theorem confirm_handler_status toUpperCase id_ userId_ lockId_
    now checkedAt bookedAt_ (seats seats' : gmap string Seat) resp :
  (∀ s, hasLowerCase (toUpperCase s) = false) →
  SeatController.confirmBooking toUpperCase id_ userId_ lockId_
    now checkedAt bookedAt_ seats = (seats', resp) →
  (SeatController.statusCode resp = 400 ↔
     SeatController.missing userId_ || SeatController.missing lockId_ = true)
  ∧ (SeatController.missing userId_ || SeatController.missing lockId_ = true →
     seats' = seats)
  ∧ (SeatController.missing userId_ || SeatController.missing lockId_ = false →
     seats' = (confirmBooking (toUpperCase id_) (SeatController.value userId_)
                 (SeatController.value lockId_) now checkedAt bookedAt_ seats).1
     ∧ SeatController.statusCode resp
       = match (confirmBooking (toUpperCase id_) (SeatController.value userId_)
                  (SeatController.value lockId_) now checkedAt bookedAt_
                  seats).2 with
         | ConfirmSuccess _ => 201
         | ConfirmSeatNotFound => 404
         | ConfirmLockExpired => 410
         | _ => 409
         end
     ∧ (SeatController.statusCode resp = 404 ↔
          seats !! toUpperCase id_ = None)).
Proof.
  intros Hup H. unfold SeatController.confirmBooking in H.
  destruct (_ || _) eqn:Hm.
  { injection H as <- <-. by repeat split. }
  set (seatId := toUpperCase id_) in *.
  pose proof (confirmBooking_found seatId (SeatController.value userId_)
                (SeatController.value lockId_) now checkedAt bookedAt_ seats
                (upper_case_not_inherited _ (Hup id_))) as Hfound.
  destruct (confirmBooking seatId _ _ _ _ _ _) as [table r].
  destruct (confirmBookingError_kind seatId r (Hup id_)) as [Hnf Hex].
  cbn [fst snd] in *.
  assert (SeatController.statusCode resp
          = match r with
            | ConfirmSuccess _ => 201
            | ConfirmSeatNotFound => 404
            | ConfirmLockExpired => 410
            | _ => 409
            end ∧ seats' = table) as [Hcode ->].
  { destruct r; try rewrite Hnf, Hex in H; by injection H as <- <-. }
  split; [rewrite Hcode; by destruct r |]. split; [done |]. intros _.
  split; [done |]. split; [done |].
  rewrite <- Hfound, Hcode. by destruct r.
Qed.

Lemma confirm_handler_status_witness :
  SeatController.statusCode
    (SeatController.confirmBooking asciiUpperCase "a1" (Some "alice")
       (Some "lock-1") 60000 60001 60001 oneLock).2 = 410.
Proof.
  destruct (confirm_handler_status asciiUpperCase "a1" (Some "alice")
              (Some "lock-1") 60000 60001 60001 oneLock _ _
              asciiUpperCase_upper (surjective_pairing _))
    as (_ & _ & H).
  destruct (H eq_refl) as (_ & Hcode & _). rewrite Hcode. by vm_compute.
Defined.

(** X16. DELETE /seats/:id/unlock. Without a [userId] or a [lockId] the
    handler answers 400 and the table is untouched. Otherwise the table is
    the one [SeatModel.unlockSeat] leaves and the status code is fixed by
    the kind of its outcome: 200 for a release, 404 for no such seat (and
    only then), 403 for a seat that is not locked and for a wrong user or
    lock identifier. *)
Theorem unlock_handler_status toUpperCase id_ userId_ lockId_
    (seats seats' : gmap string Seat) resp :
  (∀ s, hasLowerCase (toUpperCase s) = false) →
  SeatController.unlockSeat toUpperCase id_ userId_ lockId_ seats
  = (seats', resp) →
  (SeatController.statusCode resp = 400 ↔
     SeatController.missing userId_ || SeatController.missing lockId_ = true)
  ∧ (SeatController.missing userId_ || SeatController.missing lockId_ = true →
     seats' = seats)
  ∧ (SeatController.missing userId_ || SeatController.missing lockId_ = false →
     seats' = (unlockSeat (toUpperCase id_) (SeatController.value userId_)
                 (SeatController.value lockId_) seats).1
     ∧ SeatController.statusCode resp
       = match (unlockSeat (toUpperCase id_) (SeatController.value userId_)
                  (SeatController.value lockId_) seats).2 with
         | UnlockSuccess _ => 200
         | UnlockSeatNotFound => 404
         | _ => 403
         end
     ∧ (SeatController.statusCode resp = 404 ↔
          seats !! toUpperCase id_ = None)).
Proof.
  intros Hup H. unfold SeatController.unlockSeat in H.
  destruct (_ || _) eqn:Hm.
  { injection H as <- <-. by repeat split. }
  set (seatId := toUpperCase id_) in *.
  pose proof (unlockSeat_found seatId (SeatController.value userId_)
                (SeatController.value lockId_) seats
                (upper_case_not_inherited _ (Hup id_))) as Hfound.
  destruct (unlockSeat seatId _ _ _) as [table r].
  pose proof (unlockSeatError_kind seatId r (Hup id_)) as Hnf.
  cbn [fst snd] in *.
  assert (SeatController.statusCode resp
          = match r with
            | UnlockSuccess _ => 200
            | UnlockSeatNotFound => 404
            | _ => 403
            end ∧ seats' = table) as [Hcode ->].
  { destruct r; try rewrite Hnf in H; by injection H as <- <-. }
  split; [rewrite Hcode; by destruct r |]. split; [done |]. intros _.
  split; [done |]. split; [done |].
  rewrite <- Hfound, Hcode. by destruct r.
Qed.

Lemma unlock_handler_status_witness :
  SeatController.statusCode
    (SeatController.unlockSeat asciiUpperCase "a1" (Some "bob")
       (Some "lock-1") oneLock).2 = 403.
Proof.
  destruct (unlock_handler_status asciiUpperCase "a1" (Some "bob")
              (Some "lock-1") oneLock _ _
              asciiUpperCase_upper (surjective_pairing _))
    as (_ & _ & H).
  destruct (H eq_refl) as (_ & Hcode & _). rewrite Hcode. by vm_compute.
Defined.

(** X17. GET /seats/:id answers 404, with the identifier as the client
    wrote it in the text, exactly when the table has no seat for the
    upper-cased identifier; otherwise it answers 200 with that seat as the
    sweep leaves it. Either way the table has been swept. *)
Theorem getSeat_handler toUpperCase id_ now (seats : gmap string Seat) :
  (∀ s, hasLowerCase (toUpperCase s) = false) →
  (SeatController.getSeat toUpperCase id_ now seats).1
  = cleanupExpiredLocks now seats
  ∧ (seats !! toUpperCase id_ = None →
     (SeatController.getSeat toUpperCase id_ now seats).2
     = SeatController.mkResponse 404
         (SeatController.GetSeatNotFound ("Seat " ++ id_ ++ " not found")))
  ∧ (∀ seat, seats !! toUpperCase id_ = Some seat →
     (SeatController.getSeat toUpperCase id_ now seats).2
     = SeatController.mkResponse 200
         (SeatController.GetSeatData (Own (expire now seat))))
  ∧ (SeatController.statusCode
       (SeatController.getSeat toUpperCase id_ now seats).2 = 404
     ↔ seats !! toUpperCase id_ = None).
Proof.
  intros Hup. unfold SeatController.getSeat, getSeatById, get.
  rewrite lookup_cleanup, (upper_case_not_inherited _ (Hup id_)).
  destruct (seats !! toUpperCase id_) as [seat |]; simpl.
  - repeat split; try done. by intros seat0 [= <-].
  - by repeat split.
Qed.

Lemma getSeat_handler_witness :
  (SeatController.getSeat asciiUpperCase "z9" 0 initializeSeats).2
  = SeatController.mkResponse 404
      (SeatController.GetSeatNotFound ("Seat " ++ "z9" ++ " not found")).
Proof.
  refine (proj1 (proj2 (getSeat_handler asciiUpperCase "z9" 0 initializeSeats
                          asciiUpperCase_upper)) _).
  by vm_compute.
Defined.

(** ** The list and the statistics of one answer *)

Lemma values_fmap (f : Seat → Seat) (m : gmap string Seat) :
  (map_to_list (f <$> m)).*2 = f <$> (map_to_list m).*2.
Proof.
  rewrite map_to_list_fmap, <- !list_fmap_compose.
  apply list_fmap_ext. by intros i [k seat] _.
Qed.

Lemma sent_fmap (f : Seat → Seat) (m : gmap string Seat)
    (l : list (string * Seat)) :
  Forall (fun kv => m !! kv.1 = Some kv.2) l →
  SeatController.sent l.*1 (f <$> m) = f <$> l.*2.
Proof.
  unfold SeatController.sent.
  induction 1 as [| [k seat] l Hk _ IH]; [done |].
  cbn [fmap list_fmap omap list_omap fst snd] in *.
  by rewrite lookup_fmap, Hk, IH.
Qed.

(** As long as the table is not written, what is sent for its listed seats
    is the list [getAllSeats] returned. *)
Lemma sent_unchanged now (seats : gmap string Seat) :
  SeatController.sent (map_to_list (getAllSeats now seats).1).*1
                      (getAllSeats now seats).1
  = (getAllSeats now seats).2.
Proof.
  unfold getAllSeats. cbn [fst snd].
  set (m := cleanupExpiredLocks now seats).
  rewrite <- (map_fmap_id m) at 2. rewrite sent_fmap.
  - apply list_fmap_id.
  - apply Forall_forall. intros [k seat] Hin.
    by apply elem_of_map_to_list in Hin.
Qed.

(** What is sent for the listed seats of a table after one more sweep: the
    seats of the swept table. *)
Lemma sent_cleanup now (seats : gmap string Seat) :
  SeatController.sent (map_to_list seats).*1 (cleanupExpiredLocks now seats)
  = (map_to_list (cleanupExpiredLocks now seats)).*2.
Proof.
  unfold cleanupExpiredLocks. rewrite values_fmap. apply sent_fmap.
  apply Forall_forall. intros [k seat] Hin.
  by apply elem_of_map_to_list in Hin.
Qed.

(** A lock that runs out between the two clock reads of one answer: it is
    held when the list is taken and swept when the seats are counted, and
    the list sent shows it as swept. *)
Example list_sent_after_second_sweep :
  let answer :=
    SeatController.json
      (SeatController.getAllSeats 60000 60001 60002 oneLock).2 in
  countStatus LOCKED (getAllSeats 60000 oneLock).2 = 1
  ∧ countStatus LOCKED (SeatController.data_seats answer) = 0
  ∧ countStatus AVAILABLE (SeatController.data_seats answer) = 40
  ∧ locked (SeatController.data_statistics answer) = 0
  ∧ available (SeatController.data_statistics answer) = 40.
Proof. by vm_compute. Qed.

(** X18. In one answer to GET /seats the list and the statistics come from
    two sweeps with two clock reads, and the list holds the stored seat
    objects, which the second sweep changes in place before the answer is
    written. Whatever the two reads, the list sent is the list of the seats
    of the table the call leaves, in which no lock has run out at the
    second read; [total] is its length, and the numbers of available, locked
    and booked seats are those of the list sent. On every table reached
    from initialization, [total] is the constant 40 sent as
    [layout.total]. *)
Theorem list_and_statistics_agree listedAt countedAt sentAt
    (seats : gmap string Seat) :
  let answer :=
    SeatController.json
      (SeatController.getAllSeats listedAt countedAt sentAt seats).2 in
  SeatController.data_seats answer
  = (map_to_list
       (SeatController.getAllSeats listedAt countedAt sentAt seats).1).*2
  ∧ Forall (fun seat => lockExpired countedAt seat = false)
           (SeatController.data_seats answer)
  ∧ total (SeatController.data_statistics answer)
    = Z.of_nat (length (SeatController.data_seats answer))
  ∧ available (SeatController.data_statistics answer)
    = countStatus AVAILABLE (SeatController.data_seats answer)
  ∧ locked (SeatController.data_statistics answer)
    = countStatus LOCKED (SeatController.data_seats answer)
  ∧ booked (SeatController.data_statistics answer)
    = countStatus BOOKED (SeatController.data_seats answer)
  ∧ (∀ ops, seats = run ops →
       total (SeatController.data_statistics answer)
       = SeatController.layout_total answer).
Proof.
  unfold SeatController.getAllSeats, getAllSeats, getStatistics. cbn zeta.
  set (listed := cleanupExpiredLocks listedAt seats).
  cbn [fst snd SeatController.json SeatController.data_statistics
       SeatController.data_seats SeatController.layout_total].
  rewrite sent_cleanup.
  destruct (countSeat_foldr
              (map_to_list (cleanupExpiredLocks countedAt listed)).*2)
    as (Ht & Ha & Hl & Hb).
  cbn zeta in Ht, Ha, Hl, Hb.
  split; [done |]. split.
  { apply Forall_forall. intros seat Hin.
    apply list_elem_of_fmap in Hin as ([k seat'] & -> & Hin).
    apply elem_of_map_to_list in Hin. rewrite lookup_cleanup in Hin.
    destruct (listed !! k) as [seat0 |]; [| done].
    injection Hin as <-. cbn [snd]. unfold expire.
    destruct (lockExpired countedAt seat0) eqn:E; [| done].
    apply lockExpired_clearLock. }
  split; [exact Ht |]. split; [exact Ha |]. split; [exact Hl |].
  split; [exact Hb |].
  intros ops ->. rewrite Ht, length_fmap, length_map_to_list.
  unfold listed, cleanupExpiredLocks. rewrite !map_size_fmap.
  by rewrite run_size.
Qed.

(** ** After a release *)

(** X19. A released seat can be locked again at once: after a successful
    [unlockSeat], and after a [confirmBooking] that failed as expired, a
    [lockSeat] on the same seat by any user, at any time, succeeds and makes
    that user the holder with the new lock identifier. *)
Theorem release_frees_the_seat seatId (seats seats' : gmap string Seat) :
  (∀ u l released,
     unlockSeat seatId u l seats = (seats', UnlockSuccess released) →
     ∀ u' now lockedAt_ lid, ∃ seat',
       (lockSeat seatId u' now lockedAt_ lid seats').2
       = LockSuccess lid (lockedAt_ + LOCK_DURATION) seat'
       ∧ userId seat' = Some u' ∧ lockId seat' = Some lid)
  ∧ (∀ u l now0 checkedAt bookedAt_,
       confirmBooking seatId u l now0 checkedAt bookedAt_ seats
       = (seats', ConfirmLockExpired) →
       ∀ u' now lockedAt_ lid, ∃ seat',
         (lockSeat seatId u' now lockedAt_ lid seats').2
         = LockSuccess lid (lockedAt_ + LOCK_DURATION) seat'
         ∧ userId seat' = Some u' ∧ lockId seat' = Some lid).
Proof.
  assert (∀ (table : gmap string Seat) seat u' now lockedAt_ lid,
            ∃ seat',
              (lockSeat seatId u' now lockedAt_ lid
                 (<[seatId := clearLock seat]> table)).2
              = LockSuccess lid (lockedAt_ + LOCK_DURATION) seat'
              ∧ userId seat' = Some u' ∧ lockId seat' = Some lid) as Hfree.
  { intros table seat u' now lockedAt_ lid.
    exists (lockFields u' lid lockedAt_ (clearLock seat)).
    rewrite (lockSeat_available _ _ _ _ _ _ (clearLock seat)); [done | | done].
    apply cleanup_available; [apply lookup_insert_eq | done]. }
  split.
  - intros u l released H.
    destruct (unlockSeat_cases seatId u l seats)
      as [(r & E & Hf) | (seat & _ & _ & E)]; rewrite E in H.
    + injection H as _ Hr. rewrite Hr in Hf. destruct Hf.
    + injection H as <- _. apply Hfree.
  - intros u l now0 checkedAt bookedAt_ H.
    destruct (confirmBooking_cases seatId u l now0 checkedAt bookedAt_ seats)
      as [(r & E & _ & Hne) | [(seat & _ & _ & E) | (seat & _ & _ & _ & E)]];
      rewrite E in H.
    + injection H as _ Hr. by rewrite Hr in Hne.
    + injection H as <-. apply Hfree.
    + done.
Qed.
